(** * Payments and reporting routes of [src/app.js]

    A shallow embedding of the Express routes of [src/app.js] that move
    money ([POST /jobs/:job_id/pay], [POST /balances/deposit/:userId]) and
    of the two reporting routes ([GET /admin/best-profession],
    [GET /admin/best-clients]), over an explicit model of the store the
    routes reach through Sequelize.

    - [Model]     : the three tables (Profile, Contract, Job).
    - [Sequelize] : the store interface the routes call: statements,
                    [sequelize.transaction], rejected promises.
    - [Engine]    : what the routes leave to the query engine ([ORDER BY]
                    among equal keys, the text operand of [LIMIT]).
    - [App]       : the routes, statement by statement.
    - [Body]      : the deposit route on a body of any JSON type.
    - [Scenario], [Paid], [Debt] : worked stores.
    - the vocabulary of the properties, then the properties. *)

From Stdlib Require Import QArith Lqa String DecimalString DecimalPos DecimalZ.
From Stdlib Require Import Permutation Sorted.
From stdpp Require Import base option list gmap strings.

Local Open Scope string_scope.
Local Open Scope Z_scope.

(** ** The data model *)

Module Model.

Inductive ProfileType := client | contractor.

Inductive ContractStatus := new | in_progress | terminated.

#[global] Instance ContractStatus_eq_dec : EqDecision ContractStatus.
Proof. solve_decision. Defined.

(** Modelled from the spec: the column types are declared in [model.js],
    which is not among the sources.  The spec gives [balance] and [price]
    as rational currency amounts, [paid] as unset or true (the column is a
    nullable boolean), [paymentDate] as an instant, here the number of
    milliseconds since the epoch. *)
Record Profile := mkProfile {
  firstName : string;
  lastName : string;
  profession : string;
  balance : Q;
  role : ProfileType
}.

Record Contract := mkContract {
  status : ContractStatus;
  ClientId : Z;
  ContractorId : Z
}.

Record Job := mkJob {
  price : Q;
  paid : option bool;
  paymentDate : option Z;
  ContractId : Z
}.

(** The three tables, keyed by primary key [id]. *)
Record DB := mkDB {
  profiles : gmap Z Profile;
  contracts : gmap Z Contract;
  jobs : gmap Z Job
}.

(** [UPDATE Profiles SET balance = b], one row. *)
Definition set_balance (b : Q) (p : Profile) : Profile :=
  {| firstName := firstName p; lastName := lastName p;
     profession := profession p; balance := b; role := role p |}.

(** [UPDATE Jobs SET paid = true, paymentDate = d], one row. *)
Definition set_paid (d : Z) (j : Job) : Job :=
  {| price := price j; paid := Some true; paymentDate := Some d;
     ContractId := ContractId j |}.

(** [Model.update(values, { where: { id } })]: every row whose key is [id]
    is rewritten, which is no row at all when the key is absent. *)
Definition update_profile (id : Z) (f : Profile → Profile) (d : DB) : DB :=
  {| profiles := alter f id (profiles d); contracts := contracts d;
     jobs := jobs d |}.

Definition update_job (id : Z) (f : Job → Job) (d : DB) : DB :=
  {| profiles := profiles d; contracts := contracts d;
     jobs := alter f id (jobs d) |}.

(** *** The invariants the spec states on the data (section 3) *)

(** Every Job belongs to a stored Contract, and every Contract references
    two stored, distinct Profiles. *)
Definition references_ok (d : DB) : Prop :=
  map_Forall (λ _ j, is_Some (contracts d !! ContractId j)) (jobs d) ∧
  map_Forall (λ _ c, is_Some (profiles d !! ClientId c) ∧
                     is_Some (profiles d !! ContractorId c) ∧
                     ClientId c ≠ ContractorId c) (contracts d).

Definition balances_ok (d : DB) : Prop :=
  map_Forall (λ _ p, 0 <= balance p)%Q (profiles d).

Definition prices_ok (d : DB) : Prop :=
  map_Forall (λ _ j, 0 < price j)%Q (jobs d).

#[global] Instance Qle_dec (x y : Q) : Decision (x <= y)%Q.
Proof. unfold Qle. apply _. Defined.

#[global] Instance Qlt_dec (x y : Q) : Decision (x < y)%Q.
Proof. unfold Qlt. apply _. Defined.

#[global] Instance references_ok_dec d : Decision (references_ok d).
Proof. unfold references_ok. apply _. Defined.

#[global] Instance balances_ok_dec d : Decision (balances_ok d).
Proof. unfold balances_ok. apply _. Defined.

#[global] Instance prices_ok_dec d : Decision (prices_ok d).
Proof. unfold prices_ok. apply _. Defined.

End Model.

Import Model.

(** ** The store interface *)

Module Sequelize.

(** A transaction handle, as passed to the callback of
    [sequelize.transaction]. *)
Definition Tx := nat.

(** The connection: the committed tables, the number of calls issued so
    far, the number of handles given out, and the writes staged under a
    handle and not yet committed. *)
Record Conn := mkConn {
  tables : DB;
  issued : nat;
  handles : nat;
  staged : list (Tx * (DB → DB))
}.

Definition connect (d : DB) : Conn :=
  {| tables := d; issued := 0; handles := 0; staged := [] |}.

(** An awaited promise resolves to a value or rejects. *)
Inductive Settled (A : Type) := Resolved (a : A) | Rejected.
Arguments Resolved {A} a.
Arguments Rejected {A}.

Definition Async (A : Type) : Type := Conn → Settled A * Conn.

#[global] Instance Async_ret : MRet Async := λ A a c, (Resolved a, c).

#[global] Instance Async_bind : MBind Async := λ A B k m c,
  match m c with
  | (Resolved a, c') => k a c'
  | (Rejected, c') => (Rejected, c')
  end.

(** [throw]: a rejected promise, a [TypeError] included. *)
Definition throw {A} : Async A := λ c, (Rejected, c).

(** [try { m } catch (error) { h }] *)
Definition try_catch {A} (m h : Async A) : Async A := λ c,
  match m c with
  | (Resolved a, c') => (Resolved a, c')
  | (Rejected, c') => h c'
  end.

(** Reading a property of [o]: a [TypeError] when [o] is [null]. *)
Definition property_of {A} (o : option A) : Async A :=
  match o with Some a => mret a | None => throw end.

Definition tick (c : Conn) : Conn :=
  {| tables := tables c; issued := S (issued c); handles := handles c;
     staged := staged c |}.

Definition write_through (w : DB → DB) (c : Conn) : Conn :=
  {| tables := w (tables c); issued := issued c; handles := handles c;
     staged := staged c |}.

Definition stage (t : Tx) (w : DB → DB) (c : Conn) : Conn :=
  {| tables := tables c; issued := issued c; handles := handles c;
     staged := (staged c ++ [(t, w)])%list |}.

(** The writes staged under [t], oldest first, as one function. *)
Definition staged_under (t : Tx) (l : list (Tx * (DB → DB))) (d : DB) : DB :=
  fold_left (λ acc tw, if Nat.eqb (fst tw) t then snd tw acc else acc) l d.

Definition drop_staged (t : Tx) (c : Conn) : Conn :=
  {| tables := tables c; issued := issued c; handles := handles c;
     staged := filter (λ tw, fst tw ≠ t) (staged c) |}.

(** What a statement bound to [tx] reads: the committed tables, and under
    a handle its own staged writes as well. *)
Definition view (tx : option Tx) (c : Conn) : DB :=
  match tx with
  | None => tables c
  | Some t => staged_under t (staged c) (tables c)
  end.

Section Faults.

(** The store may refuse any call (lock timeout, busy database, I/O
    error): [fails n] tells whether the [n]-th call issued on the
    connection is refused.  The call then rejects and has no effect. *)
Variable fails : nat → bool.

(** A reading statement.  [tx] is the [transaction] entry of the options
    object the statement is called with. *)
Definition select {A} (tx : option Tx) (q : DB → A) : Async A := λ c,
  if fails (issued c) then (Rejected, tick c)
  else (Resolved (q (view tx c)), tick c).

(** A writing statement.  A statement joins a transaction through the
    [transaction] entry of its options and in no other way (Sequelize as
    it comes, without a continuation-local namespace).  Without that entry
    the statement is committed on its own, at once; with it the write is
    staged under the handle until the handle commits. *)
Definition execute (tx : option Tx) (w : DB → DB) : Async unit := λ c,
  if fails (issued c) then (Rejected, tick c)
  else match tx with
       | None => (Resolved (), write_through w (tick c))
       | Some t => (Resolved (), stage t w (tick c))
       end.

(** [sequelize.transaction(async (t) => { ... })]: begin, run the
    callback with a fresh handle, then commit what was staged under the
    handle when the callback resolves, and roll that back when the
    callback (or the commit) rejects.  Begin and commit are calls to the
    store like any other. *)
Definition transaction {A} (cb : Tx → Async A) : Async A := λ c,
  if fails (issued c) then (Rejected, tick c)
  else
    let t := handles c in
    let c1 := {| tables := tables c; issued := S (issued c);
                 handles := S (handles c); staged := staged c |} in
    match cb t c1 with
    | (Resolved a, c2) =>
        if fails (issued c2) then (Rejected, drop_staged t (tick c2))
        else (Resolved a,
              drop_staged t
                (write_through (staged_under t (staged c2)) (tick c2)))
    | (Rejected, c2) => (Rejected, drop_staged t c2)
    end.

End Faults.

(** No call is refused. *)
Definition reliable : nat → bool := λ _, false.

(** Exactly the [n]-th call is refused. *)
Definition refuses (n : nat) : nat → bool := Nat.eqb n.

End Sequelize.

Import Sequelize.

(** ** The query engine *)

Module Engine.

(** [ORDER BY total_amount DESC], one row before a row of equal total. *)
Definition goes_first (ties_first : bool) (x y : Q) : bool :=
  if ties_first then Qle_bool y x else negb (Qle_bool x y).

Fixpoint insert_desc {A} (ties_first : bool) (f : A → Q) (x : A)
    (l : list A) : list A :=
  match l with
  | [] => [x]
  | y :: l' =>
      if goes_first ties_first (f x) (f y) then x :: y :: l'
      else y :: insert_desc ties_first f x l'
  end.

Definition sort_desc {A} (ties_first : bool) (f : A → Q) (l : list A)
  : list A :=
  foldr (insert_desc ties_first f) [] l.

(** The text of a signed decimal numeral. *)
Definition numeral (z : Z) : string := NilZero.string_of_int (Z.to_int z).

Definition parse_numeral (s : string) : option Z :=
  Z.of_int <$> NilZero.int_of_string s.

(** What the routes leave to the store: [order_desc f rows] is
    [ORDER BY f DESC], and [to_integer] the conversion the engine applies
    to a text operand of [LIMIT]; a text it converts to no integer is a
    datatype mismatch. *)
Class Engine := {
  order_desc : ∀ {A : Type}, (A → Q) → list A → list A;
  to_integer : string → option Z
}.

(** What [ORDER BY f DESC] and the conversion promise, and no more: the
    rows come back rearranged, by non-increasing [f], the order among rows
    of equal [f] being the engine's; a decimal numeral converts to the
    integer it denotes. *)
Class EngineLaws (E : Engine) : Prop := {
  order_desc_perm : ∀ (A : Type) (f : A → Q) (l : list A),
    order_desc f l ≡ₚ l;
  order_desc_sorted : ∀ (A : Type) (f : A → Q) (l : list A),
    StronglySorted (λ a b, (f b <= f a)%Q) (order_desc f l);
  to_integer_numeral : ∀ z : Z, to_integer (numeral z) = Some z
}.

(** [LIMIT n]: the first [n] rows, all of them when [n] is negative. *)
Definition limit_rows {A} (n : Z) (rows : list A) : list A :=
  if n <? 0 then rows else take (Z.to_nat n) rows.

(** Two engines: one keeps rows of equal total in the order it met them,
    the other puts the row it met last first. *)
Definition insertion_engine (ties_first : bool) : Engine :=
  {| order_desc := λ A, sort_desc ties_first;
     to_integer := parse_numeral |}.

Definition stable_engine : Engine := insertion_engine true.
Definition reversing_engine : Engine := insertion_engine false.

End Engine.

Import Engine.

(** ** The routes *)

Module App.

(** What the client of a route observes. *)
Inductive Response (A : Type) :=
| status_end (code : Z)   (* [res.status(code).end()] *)
| json (body : A)         (* [res.json(body)] *)
| unanswered              (* the handler rejected before replying *)
| unauthenticated.        (* the profile resolver turned the request down *)
Arguments status_end {A} code.
Arguments json {A} body.
Arguments unanswered {A}.
Arguments unauthenticated {A}.

(** [job.price > req.profile.balance] and [deposit > depositLimit] *)
Definition Qgtb (x y : Q) : bool := negb (Qle_bool x y).

(** The request as a handler sees it once the resolver has run:
    [req.profile.id] and the rest of [req.profile]. *)
Record Request := mkRequest {
  profile_id : Z;
  profile : Profile
}.

(** Modelled from the spec: the [getProfile] middleware
    ([middleware/getProfile.js] is not among the sources).  Given the
    caller's identity it yields the stored Profile, or rejects the
    request; the handler runs on a connection to the store and what it
    leaves committed is the next state. *)
Definition getProfile {A} (handler : Request → Async (Response A))
    (d : DB) (caller : Z) : Response A * DB :=
  match profiles d !! caller with
  | None => (unauthenticated, d)
  | Some p =>
      match handler {| profile_id := caller; profile := p |} (connect d) with
      | (Resolved r, c) => (r, tables c)
      | (Rejected, c) => (unanswered, tables c)
      end
  end.

(** The second argument of [Model.update(values, options)] and the single
    argument of [Model.findOne(options)]: [where: { id }] and, when
    present, [transaction]. *)
Record Options := mkOptions {
  where_id : Z;
  transaction : option Tx
}.

(** The row [Job.findOne] yields in [POST /jobs/:job_id/pay]: the job, its
    [Contract] and the contract's [Contractor]. *)
Record PayableJob := mkPayableJob {
  job : Job;
  Contract_ : Contract;
  Contractor : option Profile
}.

(** [Job.findOne({ where: { id: job_id, paid: null },
      include: [{ model: Contract,
                  where: { ClientId: req.profile.id, status: "in_progress" },
                  include: [{ model: Profile, as: "Contractor" }] }] })]
    The [where] of the included Contract makes the join an inner one; the
    nested Contractor is an outer join and may be [null]. *)
Definition find_payable (job_id caller : Z) (d : DB) : option PayableJob :=
  match jobs d !! job_id with
  | None => None
  | Some j =>
      if decide (paid j = None) then
        match contracts d !! ContractId j with
        | None => None
        | Some c =>
            if decide (ClientId c = caller ∧ status c = in_progress) then
              Some {| job := j; Contract_ := c;
                      Contractor := profiles d !! ContractorId c |}
            else None
        end
      else None
  end.

(** The condition of the included Contract in
    [POST /balances/deposit/:userId]. *)
Definition owed_by (userId : Z) (d : DB) (j : Job) : bool :=
  match contracts d !! ContractId j with
  | None => false
  | Some c => bool_decide (ClientId c = userId ∧ status c = in_progress)
  end.

(** [Job.findAll({ where: { paid: null },
      include: [{ model: Contract,
                  where: { ClientId: userId, status: "in_progress" } }] })] *)
Definition find_unpaid_of (userId : Z) (d : DB) : list Job :=
  List.filter (λ j, bool_decide (paid j = None) && owed_by userId d j)
              (snd <$> map_to_list (jobs d)).

Section Handlers.

Variable fails : nat → bool.

(** [Model.update(values, options)]: Sequelize reads two arguments.  The
    routes pass their transaction handle in a third one, [ignored]. *)
Definition Profile_update (values : Profile → Profile) (options : Options)
    (ignored : option Tx) : Async unit :=
  execute fails (transaction options)
    (update_profile (where_id options) values).

Definition Job_update (values : Job → Job) (options : Options)
    (ignored : option Tx) : Async unit :=
  execute fails (transaction options)
    (update_job (where_id options) values).

(** [Model.findOne(options)]: one argument is read. *)
Definition Profile_findOne (options : Options) (ignored : option Tx)
  : Async (option Profile) :=
  select fails (transaction options) (λ d, profiles d !! where_id options).

(** [app.post("/jobs/:job_id/pay", getProfile, async (req, res) => ...)];
    [now] is what [new Date()] reads. *)
Definition pay_handler (job_id now : Z) (req : Request)
  : Async (Response unit) :=
  found ← select fails None (find_payable job_id (profile_id req));
  match found with
  | None => mret (status_end 404)
  | Some row =>
      if Qgtb (price (job row)) (balance (profile req))
      then mret (status_end 400)
      else
        try_catch
          (Sequelize.transaction fails (λ t1,
             Sequelize.transaction fails (λ t2,
               Profile_update
                 (set_balance (balance (profile req) - price (job row)))
                 {| where_id := profile_id req; transaction := None |}
                 (Some t1);;
               payee ← property_of (Contractor row);
               Profile_update
                 (set_balance (balance payee + price (job row)))
                 {| where_id := ContractorId (Contract_ row);
                    transaction := None |}
                 (Some t1);;
               Job_update (set_paid now)
                 {| where_id := job_id; transaction := None |}
                 (Some t2)));;
           mret (status_end 200))
          (mret (status_end 500))
  end.

Definition PayJob (d : DB) (caller job_id now : Z) : Response unit * DB :=
  getProfile (pay_handler job_id now) d caller.

(** [jobs.reduce((acc, job) => acc + job.price, 0)] *)
Definition totalJobsDebt (jobs : list Job) : Q :=
  fold_left (λ acc job, acc + price job)%Q jobs 0%Q.

Definition depositLimit (jobs : list Job) : Q :=
  (totalJobsDebt jobs * 0.25)%Q.

(** [app.post("/balances/deposit/:userId", getProfile, async (req, res) => ...)];
    [deposit] is [req.body.deposit]. *)
Definition deposit_handler (userId : Z) (deposit : Q) (req : Request)
  : Async (Response unit) :=
  jobs ← select fails None (find_unpaid_of userId);
  if Qgtb deposit (depositLimit jobs) then mret (status_end 400)
  else
    try_catch
      (Sequelize.transaction fails (λ t,
         client ← Profile_findOne
                    {| where_id := userId; transaction := None |} (Some t);
         row ← property_of client;
         Profile_update (set_balance (balance row + deposit))
           {| where_id := userId; transaction := None |} (Some t));;
       mret (status_end 200))
      (mret (status_end 500)).

Definition Deposit (d : DB) (caller userId : Z) (deposit : Q)
  : Response unit * DB :=
  getProfile (deposit_handler userId deposit) d caller.

End Handlers.

(** *** Reporting *)

(** A Job row with what the reporting queries join to it: its [Contract]
    and the contract's [Contractor] (best-profession) or [Client]
    (best-clients).  Both joins are outer joins. *)
Record JoinedJob := mkJoinedJob {
  row : Job;
  row_Contract : option Contract;
  row_Profile : option Profile
}.

Definition with_Contractor (d : DB) (j : Job) : JoinedJob :=
  {| row := j; row_Contract := contracts d !! ContractId j;
     row_Profile := contracts d !! ContractId j ≫=
                      λ c, profiles d !! ContractorId c |}.

Definition with_Client (d : DB) (j : Job) : JoinedJob :=
  {| row := j; row_Contract := contracts d !! ContractId j;
     row_Profile := contracts d !! ContractId j ≫=
                      λ c, profiles d !! ClientId c |}.

(** [where: { paid: true, paymentDate: { [Op.between]: [start, end] } }];
    [start] and [end] are taken as instants. *)
Definition paid_between (start end_ : Z) (j : Job) : bool :=
  bool_decide (paid j = Some true) &&
  match paymentDate j with
  | Some at_ => (start <=? at_) && (at_ <=? end_)
  | None => false
  end.

Definition paid_jobs_between (start end_ : Z) (d : DB) : list Job :=
  List.filter (paid_between start end_) (snd <$> map_to_list (jobs d)).

(** [group: ['Contract.Contractor.profession']] *)
Definition profession_key (r : JoinedJob) : option string :=
  profession <$> row_Profile r.

(** [group: ['Contract.Client.id']]: the key of the joined Client row. *)
Definition client_key (r : JoinedJob) : option Z :=
  match row_Contract r, row_Profile r with
  | Some c, Some _ => Some (ClientId c)
  | _, _ => None
  end.

(** [GROUP BY key] with [sum(price) AS total_amount]: one row per key,
    carrying the joined columns of a row of its group. *)
Fixpoint add_row {K} `{EqDecision K} (key : JoinedJob → K) (r : JoinedJob)
    (groups : list (JoinedJob * Q)) : list (JoinedJob * Q) :=
  match groups with
  | [] => [(r, price (row r))]
  | g :: rest =>
      if decide (key (fst g) = key r)
      then (fst g, (snd g + price (row r))%Q) :: rest
      else g :: add_row key r rest
  end.

Definition group_by {K} `{EqDecision K} (key : JoinedJob → K)
    (rows : list JoinedJob) : list (JoinedJob * Q) :=
  fold_left (λ groups r, add_row key r groups) rows [].

Definition total_amount (g : JoinedJob * Q) : Q := snd g.

(** The value of [limit || 2]: [req.query.limit] is absent or a string,
    and the empty string is the one falsy string. *)
Inductive LimitValue := limit_number (n : Z) | limit_text (s : string).

Definition or_2 (limit : option string) : LimitValue :=
  match limit with
  | None => limit_number 2
  | Some EmptyString => limit_number 2
  | Some s => limit_text s
  end.

Module BestProfession.
Record Entry := mkEntry {
  profession : string;
  jobs_paid_sum : Q
}.
End BestProfession.

Module BestClients.
Record Entry := mkEntry {
  id : Z;
  fullName : string;
  paid : Q
}.
End BestClients.

Section Reports.

Context {E : Engine}.
Variable fails : nat → bool.

(** The [Job.findAll] of [GET /admin/best-profession]. *)
Definition find_professions (start end_ : Z) (d : DB)
  : list (JoinedJob * Q) :=
  order_desc total_amount
    (group_by profession_key
       (with_Contractor d <$> paid_jobs_between start end_ d)).

(** [profession.Contract.Contractor.profession] throws on a [null]
    Contract or Contractor. *)
Definition profession_entry (g : JoinedJob * Q)
  : option BestProfession.Entry :=
  _ ← row_Contract (fst g);
  p ← row_Profile (fst g);
  Some {| BestProfession.profession := profession p;
          BestProfession.jobs_paid_sum := total_amount g |}.

(** [app.get("/admin/best-profession", getProfile, async (req, res) => ...)].
    [if (!professions)] never fires: an array is truthy. *)
Definition best_profession_handler (start end_ : Z) (req : Request)
  : Async (Response (list BestProfession.Entry)) :=
  professions ← select fails None (find_professions start end_);
  result ← property_of (mapM profession_entry professions);
  mret (json result).

Definition BestProfession (d : DB) (caller start end_ : Z)
  : Response (list BestProfession.Entry) * DB :=
  getProfile (best_profession_handler start end_) d caller.

(** The [Job.findAll] of [GET /admin/best-clients]; [None] when the
    engine refuses the operand of [LIMIT]. *)
Definition find_clients (start end_ : Z) (limit : LimitValue) (d : DB)
  : option (list (JoinedJob * Q)) :=
  n ← match limit with
      | limit_number n => Some n
      | limit_text s => to_integer s
      end;
  Some (limit_rows n
          (order_desc total_amount
             (group_by client_key
                (with_Client d <$> paid_jobs_between start end_ d)))).

(** The template literal of [fullName]. *)
Definition client_entry (g : JoinedJob * Q) : option BestClients.Entry :=
  c ← row_Contract (fst g);
  p ← row_Profile (fst g);
  Some {| BestClients.id := ClientId c;
          BestClients.fullName := firstName p +:+ " " +:+ lastName p;
          BestClients.paid := total_amount g |}.

(** [app.get("/admin/best-clients", getProfile, async (req, res) => ...)] *)
Definition best_clients_handler (start end_ : Z) (limit : option string)
    (req : Request) : Async (Response (list BestClients.Entry)) :=
  found ← select fails None (find_clients start end_ (or_2 limit));
  clients ← property_of found;
  result ← property_of (mapM client_entry clients);
  mret (json result).

Definition BestClients (d : DB) (caller start end_ : Z)
    (limit : option string) : Response (list BestClients.Entry) * DB :=
  getProfile (best_clients_handler start end_ limit) d caller.

End Reports.

End App.

Import App.

(** ** The reading routes *)

Module Reads.

(** [[Op.or]: [{ ContractorId: req.profile.id }, { ClientId: req.profile.id }]] *)
Definition party (caller : Z) (c : Contract) : Prop :=
  ContractorId c = caller ∨ ClientId c = caller.

#[global] Instance party_dec caller c : Decision (party caller c).
Proof. unfold party. apply _. Defined.

(** [Contract.findOne({ where: { id: id, [Op.or]: [...] } })] *)
Definition find_contract (id caller : Z) (d : DB) : option Contract :=
  match contracts d !! id with
  | None => None
  | Some c => if decide (party caller c) then Some c else None
  end.

(** [Contract.findAll({ where: { [Op.or]: [...] } })]: the rows with their
    keys. *)
Definition find_contracts (caller : Z) (d : DB) : list (Z * Contract) :=
  filter (λ ic, party caller (snd ic)) (map_to_list (contracts d)).

(** A row of [GET /jobs/unpaid]: the job, its key and its [Contract]. *)
Record UnpaidJob := mkUnpaidJob {
  unpaid_id : Z;
  unpaid_job : Job;
  unpaid_Contract : Contract
}.

(** One row of the inner join of [GET /jobs/unpaid]. *)
Definition join_unpaid (caller : Z) (d : DB) (ij : Z * Job)
  : option UnpaidJob :=
  if decide (paid (snd ij) = None) then
    match contracts d !! ContractId (snd ij) with
    | None => None
    | Some c =>
        if decide (party caller c ∧ status c = in_progress) then
          Some {| unpaid_id := fst ij; unpaid_job := snd ij;
                  unpaid_Contract := c |}
        else None
    end
  else None.

(** [Job.findAll({ where: { paid: null },
      include: [{ model: Contract,
                  where: { [Op.or]: [...], status: "in_progress" } }] })] *)
Definition find_unpaid_jobs (caller : Z) (d : DB) : list UnpaidJob :=
  omap (join_unpaid caller d) (map_to_list (jobs d)).

Section Handlers.

Variable fails : nat → bool.

(** [app.get("/contracts/:id", getProfile, async (req, res) => ...)] *)
Definition contract_handler (id : Z) (req : Request)
  : Async (Response (Z * Contract)) :=
  contract ← select fails None (find_contract id (profile_id req));
  match contract with
  | None => mret (status_end 404)
  | Some c => mret (json (id, c))
  end.

Definition GetContract (d : DB) (caller id : Z)
  : Response (Z * Contract) * DB :=
  getProfile (contract_handler id) d caller.

(** [app.get("/contracts", getProfile, async (req, res) => ...)].
    [if (!contracts)] never fires: an array is truthy. *)
Definition contracts_handler (req : Request)
  : Async (Response (list (Z * Contract))) :=
  contracts ← select fails None (find_contracts (profile_id req));
  mret (json contracts).

Definition ListContracts (d : DB) (caller : Z)
  : Response (list (Z * Contract)) * DB :=
  getProfile contracts_handler d caller.

(** [app.get("/jobs/unpaid", getProfile, async (req, res) => ...)].
    [if (!jobs)] never fires either. *)
Definition unpaid_handler (req : Request)
  : Async (Response (list UnpaidJob)) :=
  jobs ← select fails None (find_unpaid_jobs (profile_id req));
  mret (json jobs).

Definition ListUnpaidJobs (d : DB) (caller : Z)
  : Response (list UnpaidJob) * DB :=
  getProfile unpaid_handler d caller.

End Handlers.

End Reads.

Import Reads.

(** ** The body of a deposit request *)

(** [Deposit] is the deposit route on a [deposit] that is a number.  The
    route takes [req.body.deposit] as it comes: this module follows it on
    whatever the body holds, through the two operators the route applies to
    it, [deposit > depositLimit] and [client.balance + deposit]. *)

Module Body.

(** A number of the language, as a comparison sees it. *)
Inductive Num := finite (q : Q) | NaN | plus_infinity | minus_infinity.

(** [req.body.deposit]: [undefined] when the body has no such key, or the
    JSON value [bodyParser.json()] found under it, a number being the
    rational it denotes.  An array or an object enters both operators of
    the route as the string its conversion to a primitive gives,
    [primitive]. *)
Inductive Value :=
| undefined
| null
| boolean (b : bool)
| number (q : Q)
| text (s : string)
| structured (primitive : string).

(** What [client.balance + deposit] evaluates to. *)
Inductive Sum := sum_number (q : Q) | sum_NaN | sum_text (s : string).

(** What the route leaves to the language and to the column once the value
    is no number: the number a string reads as in a comparison, the string
    a number prints as in a concatenation, and what the [balance] column
    holds once it is handed a text or [NaN].  Modelled from the spec: the
    column is declared in [model.js], which is not among the sources, and
    holds a rational; [None] stands for a column that does not take the
    value, the statement being refused. *)
Class Coercions := {
  string_to_number : string → Num;
  number_to_string : Q → string;
  decimal_of_text : string → option Q;
  decimal_of_NaN : option Q
}.

(** Integers well inside the exact range of the language's numbers and of a
    decimal column. *)
Definition small (z : Z) : Prop := -10000000000 < z < 10000000000.

(** What is sure of every language and column: a decimal numeral reads as
    the integer it denotes, an integer prints as its decimal numeral, and
    the column takes the text of a decimal numeral as that integer. *)
Class CoercionLaws (Co : Coercions) : Prop := {
  string_to_number_numeral : ∀ z, small z →
    string_to_number (numeral z) = finite (inject_Z z);
  number_to_string_integer : ∀ q z, small z → (q == inject_Z z)%Q →
    number_to_string q = numeral z;
  decimal_of_text_numeral : ∀ z, small z →
    decimal_of_text (numeral z) = Some (inject_Z z)
}.

(** The coercions of the worked examples: decimal numerals only. *)
Definition decimal_coercions : Coercions :=
  {| string_to_number := λ s,
       match parse_numeral s with
       | Some z => finite (inject_Z z)
       | None => NaN
       end;
     number_to_string := λ q,
       if Pos.eqb (Qden (Qred q)) 1 then numeral (Qnum (Qred q))
       else numeral (Qnum (Qred q)) +:+ "/" +:+ numeral (Zpos (Qden (Qred q)));
     decimal_of_text := λ s, inject_Z <$> parse_numeral s;
     decimal_of_NaN := None |}.

Section Operators.

Context {Co : Coercions}.

(** The number an operand of [>] or of a numeric [+] is turned into. *)
Definition ToNumber (v : Value) : Num :=
  match v with
  | undefined => NaN
  | null => finite 0
  | boolean b => finite (if b then 1 else 0)
  | number q => finite q
  | text s => string_to_number s
  | structured s => string_to_number s
  end.

(** [deposit > depositLimit], the limit being a number: a comparison with
    [NaN] is false. *)
Definition greater (deposit : Value) (depositLimit : Q) : bool :=
  match ToNumber deposit with
  | finite q => Qgtb q depositLimit
  | NaN => false
  | plus_infinity => true
  | minus_infinity => false
  end.

(** [client.balance + deposit]: a concatenation as soon as one operand is a
    string, an addition of numbers otherwise. *)
Definition plus (balance : Q) (deposit : Value) : Sum :=
  match deposit with
  | text s => sum_text (number_to_string balance +:+ s)
  | structured s => sum_text (number_to_string balance +:+ s)
  | _ =>
      match ToNumber deposit with
      | finite q => sum_number (balance + q)
      | _ => sum_NaN
      end
  end.

(** The decimal the column holds once handed the value. *)
Definition written (value : Sum) : option Q :=
  match value with
  | sum_number q => Some q
  | sum_NaN => decimal_of_NaN
  | sum_text s => decimal_of_text s
  end.

Variable fails : nat → bool.

(** [Profile.update({ balance: value }, options)] for a value of any type. *)
Definition Profile_update_balance (value : Sum) (options : Options)
    (ignored : option Tx) : Async unit :=
  match written value with
  | Some q => Profile_update fails (set_balance q) options ignored
  | None => λ c, (Rejected, tick c)
  end.

(** [app.post("/balances/deposit/:userId", getProfile, async (req, res) => ...)]
    with [req.body.deposit] of any type. *)
Definition deposit_body_handler (userId : Z) (deposit : Value) (req : Request)
  : Async (Response unit) :=
  jobs ← select fails None (find_unpaid_of userId);
  if greater deposit (depositLimit jobs) then mret (status_end 400)
  else
    try_catch
      (Sequelize.transaction fails (λ t,
         client ← Profile_findOne fails
                    {| where_id := userId; transaction := None |} (Some t);
         row ← property_of client;
         Profile_update_balance (plus (balance row) deposit)
           {| where_id := userId; transaction := None |} (Some t));;
       mret (status_end 200))
      (mret (status_end 500)).

Definition DepositBody (d : DB) (caller userId : Z) (deposit : Value)
  : Response unit * DB :=
  getProfile (deposit_body_handler userId deposit) d caller.

End Operators.

End Body.

Import Body.



(** ** Worked stores *)

Module Scenario.

(** Client 1 (balance 100) owes job 7 (price 30) on the in-progress
    contract 10 with contractor 2 (balance 0). *)
Definition C : Profile := mkProfile "Harry" "Potter" "Wizard" 100 client.
Definition T : Profile := mkProfile "John" "Lenon" "Musician" 0 contractor.
Definition K : Contract := mkContract in_progress 1 2.
Definition J : Job := mkJob 30 None None 10.

Definition store : DB :=
  {| profiles := <[1 := C]> (<[2 := T]> ∅);
     contracts := <[10 := K]> ∅;
     jobs := <[7 := J]> ∅ |}.

End Scenario.

Module Paid.

(** Two clients, two contractors, one contract each; jobs 7 and 8 (30
    each) were paid at instants 5 and 6, job 6 (40) at instant 50, and
    job 9 is unpaid. *)
Definition store : DB :=
  {| profiles :=
       <[1 := mkProfile "Harry" "Potter" "Wizard" 100 client]>
       (<[2 := mkProfile "John" "Lenon" "Musician" 0 contractor]>
       (<[3 := mkProfile "Mr" "Robot" "Hacker" 100 client]>
       (<[4 := mkProfile "Linus" "Torvalds" "Programmer" 0 contractor]> ∅)));
     contracts :=
       <[10 := mkContract in_progress 1 2]>
       (<[11 := mkContract in_progress 3 4]> ∅);
     jobs :=
       <[6 := mkJob 40 (Some true) (Some 50) 10]>
       (<[7 := mkJob 30 (Some true) (Some 5) 10]>
       (<[8 := mkJob 30 (Some true) (Some 6) 11]>
       (<[9 := mkJob 50 None None 10]> ∅))) |}.

End Paid.

Module Debt.

(** Client 1 (balance 10) has two unpaid jobs of 50 each on the in-progress
    contract 10 with contractor 2. *)
Definition store : DB :=
  {| profiles :=
       <[1 := mkProfile "Harry" "Potter" "Wizard" 10 client]>
       (<[2 := mkProfile "John" "Lenon" "Musician" 0 contractor]> ∅);
     contracts := <[10 := mkContract in_progress 1 2]> ∅;
     jobs :=
       <[7 := mkJob 50 None None 10]> (<[8 := mkJob 50 None None 10]> ∅) |}.

End Debt.

(** ** The vocabulary of the properties *)

(** *** Paying a job: the tables after the first, the second and the third
    write of the route, for caller [caller] with stored profile [p]. *)

Definition debited (d : DB) (caller : Z) (p : Profile) (r : PayableJob) : DB :=
  update_profile caller (set_balance (balance p - price (job r))) d.

Definition credited (d : DB) (caller : Z) (p : Profile) (r : PayableJob)
    (payee : Profile) : DB :=
  update_profile (ContractorId (Contract_ r))
    (set_balance (balance payee + price (job r))) (debited d caller p r).

Definition marked (d : DB) (caller job_id now : Z) (p : Profile)
    (r : PayableJob) (payee : Profile) : DB :=
  update_job job_id (set_paid now) (credited d caller p r payee).

(** *** Depositing *)

(** The tables after the write of the deposit route. *)
Definition deposited (d : DB) (userId : Z) (amount : Q) (target : Profile)
  : DB :=
  update_profile userId (set_balance (balance target + amount)) d.

(** What the spec calls the target's outstanding debt: the sum of [price]
    over the jobs with [paid] unset whose contract has the target as client
    and is in progress. *)
Definition outstanding (d : DB) (userId : Z) (j : Job) : Prop :=
  paid j = None ∧
  ∃ c, contracts d !! ContractId j = Some c ∧
       ClientId c = userId ∧ status c = in_progress.

#[global] Instance outstanding_dec d userId j : Decision (outstanding d userId j).
Proof.
  unfold outstanding.
  destruct (contracts d !! ContractId j) as [c|].
  - destruct (decide (paid j = None ∧ ClientId c = userId
                      ∧ status c = in_progress)) as [H|H].
    + left. destruct H as (?&?&?). eauto.
    + right. intros (?&c'&[= <-]&?&?). by apply H.
  - right. by intros (?&c'&?&?).
Defined.

Definition sum_of_prices (l : list Job) : Q :=
  foldr (λ j acc, price j + acc)%Q 0%Q l.

Definition outstanding_debt (d : DB) (userId : Z) : Q :=
  sum_of_prices (filter (outstanding d userId) (snd <$> map_to_list (jobs d))).

(** *** Reporting *)

(** The jobs a report is about: [paid] is true and [paymentDate] lies within
    [start, end], bounds included. *)
Definition in_window (start end_ : Z) (j : Job) : Prop :=
  paid j = Some true ∧
  ∃ at_, paymentDate j = Some at_ ∧ start ≤ at_ ≤ end_.

#[global] Instance in_window_dec start end_ j : Decision (in_window start end_ j).
Proof.
  unfold in_window. destruct (paymentDate j) as [at_|].
  - destruct (decide (paid j = Some true ∧ start ≤ at_ ≤ end_)) as [H|H].
    + left. destruct H. eauto.
    + right. intros (?&at'&[= <-]&?). by apply H.
  - right. by intros (?&at'&?&?).
Defined.

(** The profession of a job's contract's contractor, and the client of a
    job's contract. *)
Definition contractor_profession (d : DB) (j : Job) : option string :=
  c ← contracts d !! ContractId j;
  p ← profiles d !! ContractorId c;
  Some (profession p).

Definition client_of (d : DB) (j : Job) : option Z :=
  c ← contracts d !! ContractId j;
  _ ← profiles d !! ClientId c;
  Some (ClientId c).

(** What was paid, within the window, to a profession and by a client. *)
Definition paid_to_profession (d : DB) (start end_ : Z) (prof : string) : Q :=
  sum_of_prices
    (filter (λ j, in_window start end_ j ∧
                  contractor_profession d j = Some prof)
            (snd <$> map_to_list (jobs d))).

Definition paid_by_client (d : DB) (start end_ : Z) (client_id : Z) : Q :=
  sum_of_prices
    (filter (λ j, in_window start end_ j ∧ client_of d j = Some client_id)
            (snd <$> map_to_list (jobs d))).

(** The clients with a job paid within the window. *)
Definition paying_clients (d : DB) (start end_ : Z) : gset Z :=
  list_to_set
    (omap (client_of d)
       (filter (in_window start end_) (snd <$> map_to_list (jobs d)))).

(** Ranked by descending total with ties broken by profession name
    ascending, as the spec words it. *)
Definition ranked_with_ties_by_name (result : list BestProfession.Entry)
  : Prop :=
  StronglySorted
    (λ a b,
       (BestProfession.jobs_paid_sum b < BestProfession.jobs_paid_sum a)%Q ∨
       ((BestProfession.jobs_paid_sum b == BestProfession.jobs_paid_sum a)%Q ∧
        String.leb (BestProfession.profession a) (BestProfession.profession b)
          = true))
    result.

(** The ranking of all the clients, before [LIMIT]. *)
Definition ranked_clients {E : Engine} (start end_ : Z) (d : DB)
  : list (JoinedJob * Q) :=
  order_desc total_amount
    (group_by client_key (with_Client d <$> paid_jobs_between start end_ d)).

(** The keys of the groups of a [GROUP BY], the sum of [price] over the
    rows of key [k], and the total the groups hold for key [k]. *)
Definition keys {K : Type} (key : JoinedJob → K)
    (groups : list (JoinedJob * Q)) : list K :=
  (λ g, key (fst g)) <$> groups.

Definition sum_where {K : Type} `{EqDecision K} (key : JoinedJob → K) (k : K)
    (rows : list JoinedJob) : Q :=
  foldr (λ r acc, if decide (key r = k) then price (row r) + acc else acc)%Q
        0%Q rows.

Definition total_where {K : Type} `{EqDecision K} (key : JoinedJob → K)
    (k : K) (groups : list (JoinedJob * Q)) : Q :=
  foldr (λ g acc, if decide (key (fst g) = k) then snd g + acc else acc)%Q
        0%Q groups.

(** What of a profile no route writes. *)
Definition identity_of (p : Profile)
  : string * string * string * ProfileType :=
  (firstName p, lastName p, profession p, role p).

(** The sum of [f] over a list, and what was paid within the window. *)
Definition sum_of {A : Type} (f : A → Q) (l : list A) : Q :=
  foldr (λ x acc, f x + acc)%Q 0%Q l.

Definition paid_within (d : DB) (start end_ : Z) : Q :=
  sum_of_prices (filter (in_window start end_) (snd <$> map_to_list (jobs d))).

(** ** Properties *)

(** Running a handler: unfold the store interface, keep the tables
    symbolic. *)
Ltac run :=
  cbv beta iota zeta delta
    [PayJob Deposit BestProfession BestClients getProfile pay_handler
     deposit_handler best_profession_handler best_clients_handler
     mbind mret Async_bind Async_ret select execute Sequelize.transaction
     try_catch property_of throw tick write_through stage drop_staged view
     connect Profile_update Job_update Profile_findOne issued tables handles
     staged transaction where_id profile_id profile filter list_filter
     reliable].

(** *** The engines *)

Lemma insert_desc_perm {A} b (f : A → Q) x l :
  insert_desc b f x l ≡ₚ x :: l.
Proof.
  induction l as [|y l IH]; simpl; [done|].
  destruct (goes_first b (f x) (f y)); [done|].
  rewrite IH. apply perm_swap.
Qed.

Lemma sort_desc_perm {A} b (f : A → Q) l : sort_desc b f l ≡ₚ l.
Proof.
  induction l as [|x l IH]; simpl; [done|].
  unfold sort_desc in *. simpl. rewrite insert_desc_perm. by rewrite IH.
Qed.

Lemma goes_first_le b x y : goes_first b x y = true → (y <= x)%Q.
Proof.
  destruct b; simpl.
  - apply Qle_bool_imp_le.
  - intros H. apply negb_true_iff in H.
    destruct (Qlt_le_dec y x) as [Hl|Hl]; [by apply Qlt_le_weak|].
    apply Qle_bool_iff in Hl. congruence.
Qed.

Lemma goes_first_not b x y : goes_first b x y = false → (x <= y)%Q.
Proof.
  destruct b; simpl.
  - intros H. destruct (Qlt_le_dec y x) as [Hl|Hl]; [|done].
    apply Qlt_le_weak, Qle_bool_iff in Hl. congruence.
  - intros H. apply negb_false_iff in H. by apply Qle_bool_iff.
Qed.

Lemma insert_desc_sorted {A} b (f : A → Q) x l :
  StronglySorted (λ a b, (f b <= f a)%Q) l →
  StronglySorted (λ a b, (f b <= f a)%Q) (insert_desc b f x l).
Proof.
  induction 1 as [|y l Hs IH Hy]; simpl.
  - repeat constructor.
  - destruct (goes_first b (f x) (f y)) eqn:E.
    + apply goes_first_le in E.
      constructor; [by constructor|].
      constructor; [done|].
      eapply Forall_impl; [exact Hy|].
      intros z Hz. simpl in Hz. eapply Qle_trans; eauto.
    + apply goes_first_not in E.
      constructor; [done|].
      rewrite insert_desc_perm. by constructor.
Qed.

Lemma sort_desc_sorted {A} b (f : A → Q) l :
  StronglySorted (λ a b, (f b <= f a)%Q) (sort_desc b f l).
Proof.
  induction l as [|x l IH]; [constructor|].
  by apply insert_desc_sorted.
Qed.

Lemma parse_numeral_numeral z : parse_numeral (numeral z) = Some z.
Proof.
  unfold parse_numeral, numeral.
  assert (NilZero.int_of_string (NilZero.string_of_int (Z.to_int z))
          = Some (Z.to_int z)) as ->.
  { destruct z as [|p|p]; [reflexivity| |];
      (apply NilZero.isi; simpl; intros [= H];
       by apply (DecimalPos.Unsigned.to_uint_nonnil p)). }
  simpl. by rewrite DecimalZ.of_to.
Qed.

(** Both engines keep the promises of [EngineLaws]. *)
Lemma insertion_engine_laws ties_first : EngineLaws (insertion_engine ties_first).
Proof.
  split.
  - intros A f l. apply sort_desc_perm.
  - intros A f l. apply sort_desc_sorted.
  - apply parse_numeral_numeral.
Qed.

(** *** Every run of the two paying routes *)

(** Paying a job, call by call: the lookup is call 0, the two begins are
    calls 1 and 2, the three writes calls 3, 4 and 5, the two commits calls
    6 and 7. *)
Lemma PayJob_trace fails d caller job_id now p :
  profiles d !! caller = Some p →
  PayJob fails d caller job_id now =
  if fails 0%nat then (unanswered, d)
  else match find_payable job_id caller d with
       | None => (status_end 404, d)
       | Some r =>
           if Qgtb (price (job r)) (balance p) then (status_end 400, d)
           else if fails 1%nat then (status_end 500, d)
           else if fails 2%nat then (status_end 500, d)
           else if fails 3%nat then (status_end 500, d)
           else match Contractor r with
                | None => (status_end 500, debited d caller p r)
                | Some payee =>
                    if fails 4%nat
                    then (status_end 500, debited d caller p r)
                    else if fails 5%nat
                    then (status_end 500, credited d caller p r payee)
                    else if fails 6%nat
                    then (status_end 500, marked d caller job_id now p r payee)
                    else if fails 7%nat
                    then (status_end 500, marked d caller job_id now p r payee)
                    else (status_end 200, marked d caller job_id now p r payee)
                end
       end.
Proof.
  intros resolved. unfold PayJob, getProfile. rewrite resolved. run.
  destruct (fails 0%nat); [done|].
  destruct (find_payable job_id caller d) as [r|]; [|done].
  destruct (Qgtb _ _); [done|]. run.
  destruct (fails 1%nat); [done|].
  destruct (fails 2%nat); [done|].
  destruct (fails 3%nat); [done|].
  destruct (Contractor r) as [payee|]; [|done]. run.
  destruct (fails 4%nat); [done|].
  destruct (fails 5%nat); [done|].
  destruct (fails 6%nat); [done|].
  destruct (fails 7%nat); done.
Qed.

(** Depositing, call by call: the lookup of the unpaid jobs is call 0, the
    begin call 1, the read of the target call 2, the write call 3 and the
    commit call 4. *)
Lemma Deposit_trace fails d caller userId amount p :
  profiles d !! caller = Some p →
  Deposit fails d caller userId amount =
  if fails 0%nat then (unanswered, d)
  else if Qgtb amount (depositLimit (find_unpaid_of userId d))
  then (status_end 400, d)
  else if fails 1%nat then (status_end 500, d)
  else if fails 2%nat then (status_end 500, d)
  else match profiles d !! userId with
       | None => (status_end 500, d)
       | Some target =>
           if fails 3%nat then (status_end 500, d)
           else if fails 4%nat
           then (status_end 500, deposited d userId amount target)
           else (status_end 200, deposited d userId amount target)
       end.
Proof.
  intros resolved. unfold Deposit, getProfile. rewrite resolved. run.
  destruct (fails 0%nat); [done|].
  destruct (Qgtb _ _); [done|]. run.
  destruct (fails 1%nat); [done|].
  destruct (fails 2%nat); [done|].
  destruct (profiles d !! userId) as [target|]; [|done]. run.
  destruct (fails 3%nat); [done|].
  destruct (fails 4%nat); done.
Qed.

(** *** Facts about the tables *)

Lemma Qgtb_true x y : Qgtb x y = true ↔ (y < x)%Q.
Proof.
  unfold Qgtb. rewrite negb_true_iff. split.
  - intros H. apply Qnot_le_lt. intros Hle.
    apply Qle_bool_iff in Hle. congruence.
  - intros H. destruct (Qle_bool x y) eqn:E; [|done].
    apply Qle_bool_iff in E. exfalso. by apply (Qlt_not_le y x).
Qed.

Lemma Qgtb_false x y : Qgtb x y = false ↔ (x <= y)%Q.
Proof.
  unfold Qgtb. rewrite negb_false_iff. apply Qle_bool_iff.
Qed.
Lemma find_payable_Some job_id caller d r :
  find_payable job_id caller d = Some r ↔
  jobs d !! job_id = Some (job r) ∧ paid (job r) = None ∧
  contracts d !! ContractId (job r) = Some (Contract_ r) ∧
  ClientId (Contract_ r) = caller ∧ status (Contract_ r) = in_progress ∧
  Contractor r = profiles d !! ContractorId (Contract_ r).
Proof.
  unfold find_payable. split.
  - destruct (jobs d !! job_id) as [j|] eqn:Ej; [|done].
    case_decide; [|done].
    destruct (contracts d !! ContractId j) as [c|] eqn:Ec; [|done].
    case_decide as Hc; [|done]. destruct Hc. intros [= <-]. by simpl.
  - destruct r as [j c o]. simpl. intros (-> & Hpaid & -> & Hc & Hs & ->).
    rewrite decide_True by done. by rewrite decide_True by done.
Qed.

Lemma find_payable_None job_id caller d :
  find_payable job_id caller d = None ↔
  jobs d !! job_id = None ∨
  ∃ j, jobs d !! job_id = Some j ∧
       (paid j ≠ None ∨
        status <$> contracts d !! ContractId j ≠ Some in_progress ∨
        ClientId <$> contracts d !! ContractId j ≠ Some caller).
Proof.
  unfold find_payable.
  destruct (jobs d !! job_id) as [j|] eqn:Ej; [|by split; [left|]].
  case_decide as Hpaid.
  - destruct (contracts d !! ContractId j) as [c|] eqn:Ec.
    + case_decide as Hc.
      * split; [done|]. intros [?|(j' & [= <-] & Hj)]; [done|].
        rewrite Ec in Hj. simpl in Hj. destruct Hc. 
        destruct Hj as [?|[?|?]]; congruence.
      * split; [|done]. intros _. right. exists j. split; [done|].
        right. rewrite Ec. simpl.
        destruct (decide (status c = in_progress)) as [Hs|Hs].
        -- right. intros [= Hid]. by apply Hc.
        -- left. by intros [= ?].
    + split; [|done]. intros _. right. exists j. split; [done|].
      right. left. by rewrite Ec.
  - split; [|done]. intros _. right. exists j. split; [done|]. by left.
Qed.

Lemma profiles_update_profile i f d k :
  profiles (update_profile i f d) !! k =
  if decide (i = k) then f <$> profiles d !! i else profiles d !! k.
Proof. apply lookup_alter. Qed.

Lemma jobs_update_job i f d k :
  jobs (update_job i f d) !! k =
  if decide (i = k) then f <$> jobs d !! i else jobs d !! k.
Proof. apply lookup_alter. Qed.

(** *** Paying a job *)

(** C1.  When the job exists with [paid] unset, its contract is in progress
    with the caller as client, and the caller's balance covers the price,
    the route answers 200 on a store that refuses no call: the client's
    balance is its former balance less the price, the contractor's is its
    former balance plus the price, and the job is paid, dated [now].  The
    contract references its contractor, a profile other than the client, as
    the data model has it. *)
Theorem PayJob_pays d caller job_id now p j c payee :
  profiles d !! caller = Some p →
  jobs d !! job_id = Some j →
  paid j = None →
  contracts d !! ContractId j = Some c →
  status c = in_progress →
  ClientId c = caller →
  profiles d !! ContractorId c = Some payee →
  ContractorId c ≠ ClientId c →
  (price j <= balance p)%Q →
  ∃ d', PayJob reliable d caller job_id now = (status_end 200, d') ∧
        balance <$> profiles d' !! caller = Some (balance p - price j)%Q ∧
        balance <$> profiles d' !! ContractorId c
          = Some (balance payee + price j)%Q ∧
        paid <$> jobs d' !! job_id = Some (Some true) ∧
        paymentDate <$> jobs d' !! job_id = Some (Some now) ∧
        price <$> jobs d' !! job_id = Some (price j).
Proof.
  intros Hp Hj Hpaid Hc Hs Hcl Hpayee Hne Hle.
  assert (find_payable job_id caller d =
          Some {| job := j; Contract_ := c; Contractor := Some payee |}) as Hf
    by (apply find_payable_Some; simpl; rewrite Hpayee; done).
  rewrite (PayJob_trace reliable d caller job_id now p Hp), Hf.
  cbn [job Contract_ Contractor reliable].
  apply Qgtb_false in Hle. rewrite Hle.
  eexists. split; [reflexivity|].
  unfold marked, credited, debited. cbn [job Contract_ Contractor].
  assert (∀ i f dd, jobs (update_profile i f dd) = jobs dd) as Hjobs by done.
  rewrite jobs_update_job, decide_True, !Hjobs, Hj by done.
  assert (∀ f dd k, profiles (update_job job_id f dd) !! k = profiles dd !! k)
    as Hframe by done.
  rewrite !Hframe, !profiles_update_profile.
  rewrite (decide_False (P := ContractorId c = caller)) by congruence.
  rewrite !decide_True by done.
  rewrite (decide_False (P := caller = ContractorId c)) by congruence.
  by rewrite Hp, Hpayee.
Qed.

Lemma PayJob_pays_witness :
  ∃ d', PayJob reliable Scenario.store 1 7 1000 = (status_end 200, d') ∧
        balance <$> profiles d' !! 1 = Some (100 - 30)%Q ∧
        balance <$> profiles d' !! 2 = Some (0 + 30)%Q ∧
        paid <$> jobs d' !! 7 = Some (Some true) ∧
        paymentDate <$> jobs d' !! 7 = Some (Some 1000) ∧
        price <$> jobs d' !! 7 = Some 30%Q.
Proof.
  apply (PayJob_pays Scenario.store 1 7 1000
           Scenario.C Scenario.J Scenario.K Scenario.T);
    try reflexivity; [simpl; lia | unfold Qle; simpl; lia].
Defined.

(** The scenario of the spec: client at 100 pays the job of 30 to a
    contractor at 0; afterwards they hold 70 and 30, the job is paid, and
    paying it again is answered 404. *)
Example PayJob_scenario :
  (PayJob reliable Scenario.store 1 7 1000).1 = status_end 200 ∧
  balance <$> profiles (PayJob reliable Scenario.store 1 7 1000).2 !! 1
    = Some 70%Q ∧
  balance <$> profiles (PayJob reliable Scenario.store 1 7 1000).2 !! 2
    = Some 30%Q ∧
  jobs (PayJob reliable Scenario.store 1 7 1000).2 !! 7
    = Some (mkJob 30 (Some true) (Some 1000) 10) ∧
  (PayJob reliable (PayJob reliable Scenario.store 1 7 1000).2 1 7 2000).1
    = status_end 404.
Proof. vm_compute. done. Qed.

(** C4.  Once the lookup has been answered, the route replies 404 exactly
    when the job is absent, or [paid] is set, or its contract is not in
    progress, or the caller is not the contract's client; and when none of
    these holds it replies 400 exactly when the caller's balance is below
    the price, so that a balance equal to the price goes on to the writes.
    Neither reply touches the tables. *)
Theorem PayJob_validation fails d caller job_id now p :
  fails 0%nat = false →
  profiles d !! caller = Some p →
  ((PayJob fails d caller job_id now).1 = status_end 404 ↔
     jobs d !! job_id = None ∨
     ∃ j, jobs d !! job_id = Some j ∧
          (paid j ≠ None ∨
           status <$> contracts d !! ContractId j ≠ Some in_progress ∨
           ClientId <$> contracts d !! ContractId j ≠ Some caller)) ∧
  (∀ j c,
     jobs d !! job_id = Some j →
     paid j = None →
     contracts d !! ContractId j = Some c →
     status c = in_progress →
     ClientId c = caller →
     ((PayJob fails d caller job_id now).1 = status_end 400 ↔
        (balance p < price j)%Q) ∧
     ((balance p == price j)%Q →
        (PayJob fails d caller job_id now).1 ≠ status_end 400 ∧
        (PayJob fails d caller job_id now).1 ≠ status_end 404)) ∧
  ((PayJob fails d caller job_id now).1 = status_end 404 ∨
   (PayJob fails d caller job_id now).1 = status_end 400 →
   (PayJob fails d caller job_id now).2 = d).
Proof.
  intros F0 Hp.
  rewrite (PayJob_trace fails d caller job_id now p Hp), F0.
  split; [|split].
  - rewrite <- find_payable_None.
    destruct (find_payable job_id caller d) as [r|]; [|done].
    split; [|done].
    destruct (Qgtb _ _); [done|].
    repeat (destruct (fails _); [done|]).
    destruct (Contractor r); [|done].
    repeat (destruct (fails _); [done|]). done.
  - intros j c Hj Hpaid Hc Hs Hcl.
    assert (find_payable job_id caller d =
            Some {| job := j; Contract_ := c;
                    Contractor := profiles d !! ContractorId c |}) as ->
      by (by apply find_payable_Some).
    simpl. rewrite <- Qgtb_true.
    destruct (Qgtb (price j) (balance p)) eqn:Eq.
    + split; [done|]. intros Heq. apply Qgtb_true in Eq.
      rewrite Heq in Eq. by apply Qlt_irrefl in Eq.
    + assert (∀ r : Response () * DB,
                r.1 = status_end 500 ∨ r.1 = status_end 200 →
                (r.1 = status_end 400 ↔ false = true) ∧
                (balance p == price j → r.1 ≠ status_end 400
                                        ∧ r.1 ≠ status_end 404)%Q) as Hgo.
      { intros r [-> | ->]; repeat split; done. }
      apply Hgo.
      repeat (destruct (fails _); [by left|]).
      destruct (profiles d !! ContractorId c); [|by left].
      repeat (destruct (fails _); [by left|]). by right.
  - destruct (find_payable job_id caller d) as [r|]; [|done].
    destruct (Qgtb _ _); [done|].
    assert (∀ r : Response () * DB,
              r.1 = status_end 500 ∨ r.1 = status_end 200 →
              r.1 = status_end 404 ∨ r.1 = status_end 400 → r.2 = d) as Hgo.
    { intros r' [-> | ->] [|]; done. }
    apply Hgo.
    repeat (destruct (fails _); [by left|]).
    destruct (Contractor r); [|by left].
    repeat (destruct (fails _); [by left|]). by right.
Qed.

Lemma PayJob_validation_witness :
  ((PayJob reliable Scenario.store 1 7 1000).1 = status_end 404 ↔
     jobs Scenario.store !! 7 = None ∨
     ∃ j, jobs Scenario.store !! 7 = Some j ∧
          (paid j ≠ None ∨
           status <$> contracts Scenario.store !! ContractId j
             ≠ Some in_progress ∨
           ClientId <$> contracts Scenario.store !! ContractId j ≠ Some 1)) ∧
  (∀ j c,
     jobs Scenario.store !! 7 = Some j →
     paid j = None →
     contracts Scenario.store !! ContractId j = Some c →
     status c = in_progress →
     ClientId c = 1 →
     ((PayJob reliable Scenario.store 1 7 1000).1 = status_end 400 ↔
        (balance Scenario.C < price j)%Q) ∧
     ((balance Scenario.C == price j)%Q →
        (PayJob reliable Scenario.store 1 7 1000).1 ≠ status_end 400 ∧
        (PayJob reliable Scenario.store 1 7 1000).1 ≠ status_end 404)) ∧
  ((PayJob reliable Scenario.store 1 7 1000).1 = status_end 404 ∨
   (PayJob reliable Scenario.store 1 7 1000).1 = status_end 400 →
   (PayJob reliable Scenario.store 1 7 1000).2 = Scenario.store).
Proof.
  apply (PayJob_validation reliable Scenario.store 1 7 1000 Scenario.C);
    reflexivity.
Defined.

(** Whatever the store refuses, the route never replies outside 200, 400,
    404 and 500 once the lookup has been answered, and every rejection
    inside the [try] block is reported as 500. *)
Lemma PayJob_replies fails d caller job_id now p :
  fails 0%nat = false →
  profiles d !! caller = Some p →
  (PayJob fails d caller job_id now).1 ∈
    [status_end 200; status_end 400; status_end 404; status_end 500].
Proof.
  intros F0 Hp. rewrite (PayJob_trace fails d caller job_id now p Hp), F0.
  destruct (find_payable job_id caller d) as [r|]; [|set_solver].
  destruct (Qgtb _ _); [set_solver|].
  repeat (destruct (fails _); [set_solver|]).
  destruct (Contractor r); [|set_solver].
  repeat (destruct (fails _); [set_solver|]). set_solver.
Qed.

(** The tables a run of the route can leave behind: the ones it found, or
    those after its first, second or third write. *)
Lemma PayJob_leaves fails d caller job_id now p :
  profiles d !! caller = Some p →
  (PayJob fails d caller job_id now).2 = d ∨
  ∃ r, find_payable job_id caller d = Some r ∧
       (price (job r) <= balance p)%Q ∧
       ((PayJob fails d caller job_id now).2 = debited d caller p r ∨
        ∃ payee, Contractor r = Some payee ∧
          ((PayJob fails d caller job_id now).2
             = credited d caller p r payee ∨
           (PayJob fails d caller job_id now).2
             = marked d caller job_id now p r payee)).
Proof.
  intros Hp. rewrite (PayJob_trace fails d caller job_id now p Hp).
  destruct (fails 0%nat); [by left|].
  destruct (find_payable job_id caller d) as [r|]; [|by left].
  destruct (Qgtb _ _) eqn:Eq; [by left|]. apply Qgtb_false in Eq.
  repeat (destruct (fails _); [by left|]).
  right. exists r. split; [done|]. split; [done|].
  destruct (Contractor r) as [payee|]; [|by left].
  destruct (fails 4%nat); [by left|].
  right. exists payee. split; [done|].
  repeat (destruct (fails _); [by (left + right)|]). by right.
Qed.

(** C2.  The three writes are not one unit.  On the worked store, when the
    store refuses the third write (call 5, the update of the job), the
    route replies 500 and the two balance updates stay committed: the
    client holds 70, the contractor 30, and the job is still unpaid. *)
Theorem PayJob_writes_not_atomic :
  (PayJob (refuses 5) Scenario.store 1 7 1000).1 = status_end 500 ∧
  balance <$> profiles (PayJob (refuses 5) Scenario.store 1 7 1000).2 !! 1
    = Some 70%Q ∧
  balance <$> profiles (PayJob (refuses 5) Scenario.store 1 7 1000).2 !! 2
    = Some 30%Q ∧
  paid <$> jobs (PayJob (refuses 5) Scenario.store 1 7 1000).2 !! 7
    = Some None.
Proof. vm_compute. done. Qed.

(** The same on any store: a rejection after a write leaves the write in
    place, whichever of the later calls is refused. *)
Lemma PayJob_partial_writes d caller job_id now p r payee n :
  profiles d !! caller = Some p →
  find_payable job_id caller d = Some r →
  (price (job r) <= balance p)%Q →
  Contractor r = Some payee →
  (4 <= n <= 7)%nat →
  (PayJob (refuses n) d caller job_id now).1 = status_end 500 ∧
  (PayJob (refuses n) d caller job_id now).2 =
    match n with
    | 4%nat => debited d caller p r
    | 5%nat => credited d caller p r payee
    | _ => marked d caller job_id now p r payee
    end.
Proof.
  intros Hp Hf Hle Hpayee Hn.
  rewrite (PayJob_trace (refuses n) d caller job_id now p Hp), Hf, Hpayee.
  apply Qgtb_false in Hle. rewrite Hle.
  assert (n = 4 ∨ n = 5 ∨ n = 6 ∨ n = 7)%nat as [-> | [-> | [-> | ->]]] by lia;
    done.
Qed.

(** A missing contractor has the same effect without any refusal: the
    client is debited, then reading the contractor's balance throws. *)
Lemma PayJob_missing_contractor d caller job_id now p r :
  profiles d !! caller = Some p →
  find_payable job_id caller d = Some r →
  (price (job r) <= balance p)%Q →
  Contractor r = None →
  PayJob reliable d caller job_id now
    = (status_end 500, debited d caller p r).
Proof.
  intros Hp Hf Hle Hnone.
  rewrite (PayJob_trace reliable d caller job_id now p Hp), Hf, Hnone.
  apply Qgtb_false in Hle. by rewrite Hle.
Qed.

(** C3.  Money is not conserved when the route fails between its writes.
    On the worked store, when the store refuses the second write (call 4,
    the credit of the contractor), the route replies 500 with the client
    debited and the contractor not credited: the two balances summed to 100
    before and sum to 70 after. *)
Theorem PayJob_money_lost :
  (PayJob (refuses 4) Scenario.store 1 7 1000).1 = status_end 500 ∧
  balance <$> profiles Scenario.store !! 1 = Some 100%Q ∧
  balance <$> profiles Scenario.store !! 2 = Some 0%Q ∧
  balance <$> profiles (PayJob (refuses 4) Scenario.store 1 7 1000).2 !! 1
    = Some 70%Q ∧
  balance <$> profiles (PayJob (refuses 4) Scenario.store 1 7 1000).2 !! 2
    = Some 0%Q.
Proof. vm_compute. done. Qed.

(** On a store that refuses no call the sum of the two balances is kept, on
    every reply, provided the contract references its contractor, a profile
    other than the client. *)
Lemma PayJob_conserves_when_reliable d caller job_id now p r payee :
  profiles d !! caller = Some p →
  find_payable job_id caller d = Some r →
  profiles d !! ContractorId (Contract_ r) = Some payee →
  ContractorId (Contract_ r) ≠ caller →
  ∃ p' payee',
    profiles (PayJob reliable d caller job_id now).2 !! caller = Some p' ∧
    profiles (PayJob reliable d caller job_id now).2
      !! ContractorId (Contract_ r) = Some payee' ∧
    (balance p' + balance payee' == balance p + balance payee)%Q.
Proof.
  intros Hp Hf Hpayee Hne.
  rewrite (PayJob_trace reliable d caller job_id now p Hp), Hf.
  pose proof (proj1 (find_payable_Some _ _ _ _) Hf) as (_&_&_&_&_&Hc).
  rewrite Hc, Hpayee. cbn [reliable].
  destruct (Qgtb _ _).
  - exists p, payee. cbn [snd]. by rewrite Hp, Hpayee.
  - cbn [snd]. unfold marked, credited, debited.
    assert (∀ f dd k, profiles (update_job job_id f dd) !! k
                      = profiles dd !! k) as Hframe by done.
    rewrite !Hframe, !profiles_update_profile.
    rewrite (decide_False (P := ContractorId (Contract_ r) = caller)) by done.
    rewrite !decide_True by done.
    rewrite (decide_False (P := caller = ContractorId (Contract_ r))) by done.
    rewrite Hp, Hpayee. eexists _, _. split; [done|]. split; [done|].
    simpl. ring.
Qed.

(** *** Depositing *)

Lemma fold_left_prices l a :
  (fold_left (λ acc j, acc + price j) l a == a + sum_of_prices l)%Q.
Proof.
  revert a. induction l as [|j l IH]; intros a; simpl.
  - ring.
  - rewrite IH. ring.
Qed.

Lemma totalJobsDebt_sum l : (totalJobsDebt l == sum_of_prices l)%Q.
Proof. unfold totalJobsDebt. rewrite fold_left_prices. ring. Qed.

Lemma owed_by_outstanding d userId j :
  bool_decide (paid j = None) && owed_by userId d j = true ↔
  outstanding d userId j.
Proof.
  unfold owed_by, outstanding. rewrite andb_true_iff, bool_decide_eq_true.
  destruct (contracts d !! ContractId j) as [c|].
  - rewrite bool_decide_eq_true. split.
    + intros (?&?&?). eauto.
    + intros (?&c'&[= <-]&?&?). done.
  - split; [by intros [_ ?]|]. by intros (?&c'&?&?).
Qed.

Lemma filter_bool_Prop {A} (f : A → bool) (P : A → Prop)
    `{∀ x, Decision (P x)} (l : list A) :
  (∀ x, f x = true ↔ P x) → List.filter f l = filter P l.
Proof.
  intros Hf. induction l as [|x l IH]; [done|]. simpl.
  rewrite filter_cons. destruct (f x) eqn:E.
  - rewrite decide_True by (by apply Hf). by rewrite IH.
  - rewrite decide_False; [done|]. intros HP. apply Hf in HP. congruence.
Qed.

Lemma filter_none {A} (P : A → Prop) `{∀ x, Decision (P x)} (l : list A) :
  (∀ x, x ∈ l → ¬ P x) → filter P l = [].
Proof.
  induction l as [|x l IH]; intros Hl; [done|].
  rewrite filter_cons, decide_False by (apply Hl; left).
  apply IH. intros y Hy. apply Hl. by right.
Qed.

Lemma totalJobsDebt_outstanding d userId :
  (totalJobsDebt (find_unpaid_of userId d) == outstanding_debt d userId)%Q.
Proof.
  rewrite totalJobsDebt_sum. unfold find_unpaid_of, outstanding_debt.
  rewrite (filter_bool_Prop _ (outstanding d userId)); [reflexivity|].
  intros j. apply owed_by_outstanding.
Qed.

Lemma sum_of_prices_nonneg l :
  Forall (λ j, 0 < price j)%Q l → (0 <= sum_of_prices l)%Q.
Proof.
  induction 1 as [|j l Hj _ IH]; simpl; [apply Qle_refl|].
  apply Qlt_le_weak in Hj. lra.
Qed.

Lemma depositLimit_nonneg d userId :
  prices_ok d → (0 <= depositLimit (find_unpaid_of userId d))%Q.
Proof.
  intros Hprices. unfold depositLimit. rewrite totalJobsDebt_sum.
  assert (0 <= sum_of_prices (find_unpaid_of userId d))%Q as Hsum; [|lra].
  apply sum_of_prices_nonneg, Forall_forall. intros j Hin.
  apply list_elem_of_In, filter_In in Hin as [Hin _].
  apply list_elem_of_In, list_elem_of_fmap in Hin as ([i j']&->&Hin).
  apply elem_of_map_to_list in Hin. by apply (Hprices i j').
Qed.

(** C5.  The route sums the prices of the target's unpaid jobs on
    in-progress contracts, takes a quarter of the sum as the limit, and
    replies 400 exactly when the amount is above the limit.  An amount equal
    to the limit is accepted and added to the target's balance, and a target
    without outstanding debt has limit zero, so that every positive amount
    is turned down. *)
Theorem Deposit_limit fails d caller userId amount p :
  fails 0%nat = false →
  profiles d !! caller = Some p →
  (totalJobsDebt (find_unpaid_of userId d) == outstanding_debt d userId)%Q ∧
  (depositLimit (find_unpaid_of userId d)
     == 0.25 * outstanding_debt d userId)%Q ∧
  ((Deposit fails d caller userId amount).1 = status_end 400 ↔
     (depositLimit (find_unpaid_of userId d) < amount)%Q) ∧
  ((amount == depositLimit (find_unpaid_of userId d))%Q →
   ∀ target, profiles d !! userId = Some target →
     (∀ n, fails n = false) →
     (Deposit fails d caller userId amount).1 = status_end 200 ∧
     balance <$> profiles (Deposit fails d caller userId amount).2 !! userId
       = Some (balance target + amount)%Q) ∧
  ((∀ i j, jobs d !! i = Some j → ¬ outstanding d userId j) →
   (depositLimit (find_unpaid_of userId d) == 0)%Q ∧
   ((0 < amount)%Q →
    (Deposit fails d caller userId amount).1 = status_end 400)).
Proof.
  intros F0 Hp.
  rewrite (Deposit_trace fails d caller userId amount p Hp), F0.
  pose proof (totalJobsDebt_outstanding d userId) as Hdebt.
  split; [done|]. split; [unfold depositLimit; rewrite Hdebt; ring|].
  split; [|split].
  - rewrite <- Qgtb_true. destruct (Qgtb _ _); [done|]. split; [|done].
    repeat (destruct (fails _); [done|]).
    destruct (profiles d !! userId); [|done].
    repeat (destruct (fails _); [done|]). done.
  - intros Heq target Ht Hrel.
    assert (Qgtb amount (depositLimit (find_unpaid_of userId d)) = false)
      as -> by (apply Qgtb_false; rewrite Heq; apply Qle_refl).
    rewrite !Hrel, Ht. split; [done|]. cbn [snd]. unfold deposited.
    by rewrite profiles_update_profile, decide_True, Ht.
  - intros Hnone.
    assert (find_unpaid_of userId d = []) as Hempty.
    { unfold find_unpaid_of.
      rewrite (filter_bool_Prop _ (outstanding d userId))
        by (intros j; apply owed_by_outstanding).
      apply filter_none. intros j Hin.
      apply list_elem_of_fmap in Hin as ([i j']&->&Hin).
      apply elem_of_map_to_list in Hin. by apply (Hnone i j'). }
    rewrite Hempty. split; [reflexivity|].
    intros Hpos.
    assert (Qgtb amount (depositLimit []) = true) as ->; [|done].
    apply Qgtb_true. unfold depositLimit, totalJobsDebt. simpl. lra.
Qed.

Lemma Deposit_limit_witness :
  (totalJobsDebt (find_unpaid_of 1 Scenario.store)
     == outstanding_debt Scenario.store 1)%Q ∧
  (depositLimit (find_unpaid_of 1 Scenario.store)
     == 0.25 * outstanding_debt Scenario.store 1)%Q ∧
  ((Deposit reliable Scenario.store 1 1 7.5).1 = status_end 400 ↔
     (depositLimit (find_unpaid_of 1 Scenario.store) < 7.5)%Q) ∧
  ((7.5 == depositLimit (find_unpaid_of 1 Scenario.store))%Q →
   ∀ target, profiles Scenario.store !! 1 = Some target →
     (∀ n, reliable n = false) →
     (Deposit reliable Scenario.store 1 1 7.5).1 = status_end 200 ∧
     balance <$> profiles (Deposit reliable Scenario.store 1 1 7.5).2 !! 1
       = Some (balance target + 7.5)%Q) ∧
  ((∀ i j, jobs Scenario.store !! i = Some j →
           ¬ outstanding Scenario.store 1 j) →
   (depositLimit (find_unpaid_of 1 Scenario.store) == 0)%Q ∧
   ((0 < 7.5)%Q →
    (Deposit reliable Scenario.store 1 1 7.5).1 = status_end 400)).
Proof.
  apply (Deposit_limit reliable Scenario.store 1 1 7.5 Scenario.C);
    reflexivity.
Defined.

(** The worked store at the boundary: the debt is 30, the limit 7.5; 7.5 is
    accepted and 7.51 is not. *)
Example Deposit_at_the_limit :
  (Deposit reliable Scenario.store 1 1 7.5).1 = status_end 200 ∧
  balance <$> profiles (Deposit reliable Scenario.store 1 1 7.5).2 !! 1
    = Some (100 + 7.5)%Q ∧
  Deposit reliable Scenario.store 1 1 7.51 = (status_end 400, Scenario.store).
Proof. vm_compute. done. Qed.

(** The scenario of the spec: with two unpaid jobs of 50 the limit is 25;
    depositing 60 is turned down and depositing 25 adds 25. *)
Example Deposit_scenario :
  Deposit reliable Debt.store 1 1 60 = (status_end 400, Debt.store) ∧
  (Deposit reliable Debt.store 1 1 25).1 = status_end 200 ∧
  balance <$> profiles (Deposit reliable Debt.store 1 1 25).2 !! 1
    = Some (10 + 25)%Q.
Proof. vm_compute. done. Qed.

(** Without outstanding debt the limit is zero: client 3 of the second
    store has its only job paid, and a deposit of 1 is turned down. *)
Example Deposit_without_debt :
  (depositLimit (find_unpaid_of 3 Paid.store) == 0)%Q ∧
  Deposit reliable Paid.store 3 3 1 = (status_end 400, Paid.store).
Proof. split; [reflexivity|]. vm_compute. done. Qed.

(** *** The body of a deposit request *)

(** On a number the route is the one of [Deposit]. *)
Lemma DepositBody_number {Co : Coercions} fails d caller userId amount :
  DepositBody fails d caller userId (number amount)
  = Deposit fails d caller userId amount.
Proof. reflexivity. Qed.

(** A deposit of any type, call by call: as [Deposit_trace], the write
    being call 3 and refused by the column when it does not take the value. *)
Lemma DepositBody_trace {Co : Coercions} fails d caller userId deposit p :
  profiles d !! caller = Some p →
  DepositBody fails d caller userId deposit =
  if fails 0%nat then (unanswered, d)
  else if greater deposit (depositLimit (find_unpaid_of userId d))
  then (status_end 400, d)
  else if fails 1%nat then (status_end 500, d)
  else if fails 2%nat then (status_end 500, d)
  else match profiles d !! userId with
       | None => (status_end 500, d)
       | Some target =>
           match written (plus (balance target) deposit) with
           | None => (status_end 500, d)
           | Some q =>
               if fails 3%nat then (status_end 500, d)
               else if fails 4%nat
               then (status_end 500, update_profile userId (set_balance q) d)
               else (status_end 200, update_profile userId (set_balance q) d)
           end
       end.
Proof.
  intros resolved. unfold DepositBody, getProfile. rewrite resolved.
  unfold deposit_body_handler. run.
  destruct (fails 0%nat); [done|].
  destruct (greater _ _); [done|]. run.
  destruct (fails 1%nat); [done|].
  destruct (fails 2%nat); [done|].
  destruct (profiles d !! userId) as [target|]; [|done].
  unfold Profile_update_balance.
  destruct (written _) as [q|]; [|done]. run.
  destruct (fails 3%nat); [done|].
  destruct (fails 4%nat); done.
Qed.

Lemma Qred_inject_Z z : Qred (inject_Z z) = inject_Z z.
Proof.
  unfold Qred, inject_Z.
  pose proof (Z.ggcd_gcd z 1) as Hg.
  pose proof (Z.ggcd_correct_divisors z 1) as Hd.
  destruct (Z.ggcd z 1) as [g [aa bb]]. simpl in Hg.
  rewrite Z.gcd_1_r in Hg. subst g. destruct Hd as [-> Hb].
  f_equal; [lia|]. assert (bb = 1) as -> by lia. done.
Qed.

(** The coercions of the worked examples keep the promises of
    [CoercionLaws]. *)
Lemma decimal_coercions_laws : CoercionLaws decimal_coercions.
Proof.
  split.
  - intros z _. simpl. by rewrite parse_numeral_numeral.
  - intros q z _ Hq. simpl.
    rewrite (Qred_complete _ _ Hq), Qred_inject_Z. done.
  - intros z _. simpl. by rewrite parse_numeral_numeral.
Qed.
(** On a store that refuses no call and for a stored target, a deposit of
    any type is answered 400 exactly when the comparison holds of it. *)
Lemma DepositBody_turned_down {Co : Coercions} d caller userId deposit p target :
  profiles d !! caller = Some p →
  profiles d !! userId = Some target →
  (DepositBody reliable d caller userId deposit).1 = status_end 400 ↔
  greater deposit (depositLimit (find_unpaid_of userId d)) = true.
Proof.
  intros Hp Ht.
  rewrite (DepositBody_trace reliable d caller userId deposit p Hp), Ht.
  cbn [reliable].
  destruct (greater _ _); [done|].
  destruct (written _); done.
Qed.

(** Past the comparison the sum is written when the column takes it, and
    the reply is 500 with nothing written when it does not. *)
Lemma DepositBody_accepted {Co : Coercions} d caller userId deposit p target :
  profiles d !! caller = Some p →
  profiles d !! userId = Some target →
  greater deposit (depositLimit (find_unpaid_of userId d)) = false →
  match written (plus (balance target) deposit) with
  | Some q =>
      (DepositBody reliable d caller userId deposit).1 = status_end 200 ∧
      balance <$>
        profiles (DepositBody reliable d caller userId deposit).2 !! userId
        = Some q
  | None =>
      DepositBody reliable d caller userId deposit = (status_end 500, d)
  end.
Proof.
  intros Hp Ht Hle.
  rewrite (DepositBody_trace reliable d caller userId deposit p Hp), Ht, Hle.
  cbn [reliable]. destruct (written _) as [q|]; [|done].
  split; [done|]. cbn [snd].
  by rewrite profiles_update_profile, decide_True, Ht.
Qed.

(** The text of a numeral within the limit, or an array or object that
    converts to it, is appended to the digits of an integer balance. *)
Lemma DepositBody_appends {Co : Coercions} {L : CoercionLaws Co}
    d caller userId p target held amount appended deposit :
  profiles d !! caller = Some p →
  profiles d !! userId = Some target →
  small held → small amount → small appended →
  (balance target == inject_Z held)%Q →
  (inject_Z amount <= depositLimit (find_unpaid_of userId d))%Q →
  numeral held +:+ numeral amount = numeral appended →
  deposit ∈ [text (numeral amount); structured (numeral amount)] →
  (DepositBody reliable d caller userId deposit).1 = status_end 200 ∧
  balance <$>
    profiles (DepositBody reliable d caller userId deposit).2 !! userId
    = Some (inject_Z appended).
Proof.
  intros Hp Ht Hheld Hamount Happended Hbal Hle Happ Hin.
  assert (greater deposit (depositLimit (find_unpaid_of userId d)) = false
          ∧ written (plus (balance target) deposit)
            = Some (inject_Z appended)) as [Hg Hw].
  { apply elem_of_cons in Hin as [->|Hin];
      [|apply list_elem_of_singleton in Hin as ->];
      (split;
       [unfold greater; cbn [ToNumber];
        rewrite (string_to_number_numeral amount Hamount);
        by apply Qgtb_false
       |cbn [plus written];
        rewrite (number_to_string_integer _ held Hheld Hbal), Happ;
        by apply decimal_of_text_numeral]). }
  pose proof (DepositBody_accepted d caller userId deposit p target Hp Ht Hg)
    as H.
  by rewrite Hw in H.
Qed.

(** C9.  The deposit of the request body is checked against the limit and
    against nothing else, neither a lower bound nor its type.  For a stored
    target and a store that refuses no call: every number up to the limit is
    accepted and the stored balance becomes [balance + amount], a balance
    lower than before when the amount is negative; zero and every negative
    amount are within the limit, which is never negative.  A value of any
    type is answered 400 only when the comparison of the language holds of
    it (of a string: when it reads as a number above the limit), and is
    otherwise written as the sum of the language gives it: a missing
    deposit is never answered 400, [null] counts as 0 and a boolean as 0 or
    1, and the text of a numeral within the limit is accepted and appended
    to the digits of the balance. *)
Theorem Deposit_has_no_lower_bound {Co : Coercions} {L : CoercionLaws Co}
    d caller userId p target :
  profiles d !! caller = Some p →
  profiles d !! userId = Some target →
  (∀ amount, (amount <= depositLimit (find_unpaid_of userId d))%Q →
     (DepositBody reliable d caller userId (number amount)).1 = status_end 200 ∧
     balance <$>
       profiles (DepositBody reliable d caller userId (number amount)).2
         !! userId
       = Some (balance target + amount)%Q ∧
     ((amount < 0)%Q →
      ∃ lowered,
        balance <$>
          profiles (DepositBody reliable d caller userId (number amount)).2
            !! userId
          = Some lowered ∧
        (lowered < balance target)%Q)) ∧
  (prices_ok d → ∀ amount, (amount <= 0)%Q →
     (amount <= depositLimit (find_unpaid_of userId d))%Q) ∧
  (∀ deposit,
     (DepositBody reliable d caller userId deposit).1 = status_end 400 ↔
     greater deposit (depositLimit (find_unpaid_of userId d)) = true) ∧
  (∀ s deposit, deposit ∈ [text s; structured s] →
     (DepositBody reliable d caller userId deposit).1 = status_end 400 ↔
     match string_to_number s with
     | finite q => (depositLimit (find_unpaid_of userId d) < q)%Q
     | plus_infinity => True
     | NaN | minus_infinity => False
     end) ∧
  (∀ deposit,
     greater deposit (depositLimit (find_unpaid_of userId d)) = false →
     match written (plus (balance target) deposit) with
     | Some q =>
         (DepositBody reliable d caller userId deposit).1 = status_end 200 ∧
         balance <$>
           profiles (DepositBody reliable d caller userId deposit).2 !! userId
           = Some q
     | None =>
         DepositBody reliable d caller userId deposit = (status_end 500, d)
     end) ∧
  ((DepositBody reliable d caller userId undefined).1 ≠ status_end 400 ∧
   ((DepositBody reliable d caller userId undefined).1 = status_end 200 ↔
    is_Some decimal_of_NaN) ∧
   (∀ q, decimal_of_NaN = Some q →
      balance <$>
        profiles (DepositBody reliable d caller userId undefined).2 !! userId
        = Some q)) ∧
  ((0 <= depositLimit (find_unpaid_of userId d))%Q →
   (DepositBody reliable d caller userId null).1 = status_end 200 ∧
   balance <$> profiles (DepositBody reliable d caller userId null).2 !! userId
     = Some (balance target + 0)%Q) ∧
  (∀ b : bool,
     ((if b then 1 else 0) <= depositLimit (find_unpaid_of userId d))%Q →
     (DepositBody reliable d caller userId (boolean b)).1 = status_end 200 ∧
     balance <$>
       profiles (DepositBody reliable d caller userId (boolean b)).2 !! userId
       = Some (balance target + (if b then 1 else 0))%Q) ∧
  (∀ held amount appended,
     small held → small amount → small appended →
     (balance target == inject_Z held)%Q →
     (inject_Z amount <= depositLimit (find_unpaid_of userId d))%Q →
     numeral held +:+ numeral amount = numeral appended →
     ∀ deposit, deposit ∈ [text (numeral amount); structured (numeral amount)] →
       (DepositBody reliable d caller userId deposit).1 = status_end 200 ∧
       balance <$>
         profiles (DepositBody reliable d caller userId deposit).2 !! userId
         = Some (inject_Z appended)).
Proof.
  intros Hp Ht.
  pose proof (λ deposit,
    DepositBody_turned_down d caller userId deposit p target Hp Ht)
    as Hturned_down.
  pose proof (λ deposit,
    DepositBody_accepted d caller userId deposit p target Hp Ht)
    as Haccepted.
  split_and!.
  - intros amount Hle.
    pose proof (Haccepted (number amount)) as H.
    unfold greater in H. cbn in H.
    specialize (H (proj2 (Qgtb_false _ _) Hle)) as [H200 Hb].
    split; [done|]. split; [done|].
    intros Hneg. exists (balance target + amount)%Q. split; [done|lra].
  - intros Hprices amount Hneg.
    pose proof (depositLimit_nonneg d userId Hprices). lra.
  - done.
  - intros s deposit Hin. rewrite Hturned_down.
    assert (greater deposit (depositLimit (find_unpaid_of userId d))
            = greater (text s) (depositLimit (find_unpaid_of userId d))) as ->.
    { apply elem_of_cons in Hin as [->|Hin]; [done|].
      by apply list_elem_of_singleton in Hin as ->. }
    unfold greater. cbn [ToNumber].
    destruct (string_to_number s); [apply Qgtb_true|done..].
  - done.
  - by rewrite Hturned_down.
  - pose proof (Haccepted undefined eq_refl) as H. cbn in H.
    destruct decimal_of_NaN as [q|] eqn:E.
    + by destruct H.
    + rewrite H. cbn. split; [done|]. by intros [? [=]].
  - intros q Hq. pose proof (Haccepted undefined eq_refl) as H. cbn in H.
    rewrite Hq in H. by destruct H.
  - intros Hle.
    pose proof (Haccepted null) as H. unfold greater in H. cbn in H.
    exact (H (proj2 (Qgtb_false _ _) Hle)).
  - intros b Hle.
    pose proof (Haccepted (boolean b)) as H. unfold greater in H. cbn in H.
    exact (H (proj2 (Qgtb_false _ _) Hle)).
  - intros held amount appended Hheld Hamount Happended Hbal Hle Happ
      deposit Hin.
    by apply (DepositBody_appends d caller userId p target held amount
                appended).
Qed.

Lemma Deposit_has_no_lower_bound_witness :
  (DepositBody (Co := decimal_coercions) reliable Scenario.store 1 1
     (number (-500))).1 = status_end 200 ∧
  balance <$>
    profiles (DepositBody (Co := decimal_coercions) reliable Scenario.store
                1 1 (number (-500))).2 !! 1
    = Some (100 + -500)%Q ∧
  (∃ lowered,
     balance <$>
       profiles (DepositBody (Co := decimal_coercions) reliable Scenario.store
                   1 1 (number (-500))).2 !! 1
       = Some lowered ∧
     (lowered < 100)%Q) ∧
  (DepositBody (Co := decimal_coercions) reliable Scenario.store 1 1
     (text "5")).1 = status_end 200 ∧
  balance <$>
    profiles (DepositBody (Co := decimal_coercions) reliable Scenario.store
                1 1 (text "5")).2 !! 1
    = Some (inject_Z 1005) ∧
  (DepositBody (Co := decimal_coercions) reliable Scenario.store 1 1
     undefined).1 ≠ status_end 400.
Proof.
  destruct (Deposit_has_no_lower_bound (L := decimal_coercions_laws)
              Scenario.store 1 1 Scenario.C Scenario.C eq_refl eq_refl)
    as (Hnumber & _ & _ & _ & _ & (Hmissing & _) & _ & _ & Htext).
  destruct (Hnumber (-500)%Q ltac:(vm_compute; discriminate))
    as (H200 & Hbalance & Hlowered).
  destruct (Htext 100 5 1005 ltac:(unfold small; lia) ltac:(unfold small; lia)
              ltac:(unfold small; lia) ltac:(reflexivity)
              ltac:(vm_compute; discriminate) eq_refl
              (text "5") ltac:(left))
    as (Htext200 & Htextbalance).
  repeat apply conj; try done.
  apply Hlowered. reflexivity.
Defined.

(** The deposit ["5"] on the worked store, where client 1 holds 100 and
    the limit is 7.5: the reply is 200 and the balance left is 1005,
    whatever the language and the column do beyond decimal numerals. *)
Example Deposit_of_a_text {Co : Coercions} {L : CoercionLaws Co} :
  (DepositBody reliable Scenario.store 1 1 (text "5")).1 = status_end 200 ∧
  balance <$>
    profiles (DepositBody reliable Scenario.store 1 1 (text "5")).2 !! 1
    = Some (inject_Z 1005).
Proof.
  apply (DepositBody_appends Scenario.store 1 1 Scenario.C Scenario.C 100 5
           1005);
    [reflexivity | reflexivity | unfold small; lia | unfold small; lia
    | unfold small; lia | reflexivity | vm_compute; discriminate
    | reflexivity | left].
Qed.

(** *** Non-negative balances *)

Lemma balances_ok_update_profile i b d :
  (0 <= b)%Q → balances_ok d → balances_ok (update_profile i (set_balance b) d).
Proof.
  intros Hb Hd k q. unfold update_profile. cbn [profiles].
  rewrite lookup_alter. case_decide as Hk.
  - destruct (profiles d !! i); [|done]. by intros [= <-].
  - apply Hd.
Qed.

(** C6, as the code has it.  Paying a job keeps every balance non-negative,
    whichever calls the store refuses; a deposit does so when the amount is
    not negative. *)
Theorem balances_stay_nonnegative fails d caller :
  balances_ok d →
  prices_ok d →
  (∀ job_id now, balances_ok (PayJob fails d caller job_id now).2) ∧
  (∀ userId amount, (0 <= amount)%Q →
     balances_ok (Deposit fails d caller userId amount).2).
Proof.
  intros Hb Hprices. split.
  - intros job_id now.
    destruct (profiles d !! caller) as [p|] eqn:Hp;
      [|by unfold PayJob, getProfile; rewrite Hp].
    destruct (PayJob_leaves fails d caller job_id now p Hp)
      as [->|(r&Hf&Hle&Hr)]; [done|].
    assert (balances_ok (debited d caller p r)) as Hdebited.
    { apply balances_ok_update_profile; [lra|done]. }
    destruct Hr as [->|(payee&Hpayee&Hr)]; [done|].
    assert (balances_ok (credited d caller p r payee)) as Hcredited.
    { apply balances_ok_update_profile; [|done].
      apply find_payable_Some in Hf as (Hj&_&_&_&_&Hc).
      rewrite Hpayee in Hc. symmetry in Hc.
      apply Hb in Hc. apply Hprices in Hj. simpl in Hc, Hj. lra. }
    by destruct Hr as [-> | ->].
  - intros userId amount Hpos.
    destruct (profiles d !! caller) as [p|] eqn:Hp;
      [|by unfold Deposit, getProfile; rewrite Hp].
    rewrite (Deposit_trace fails d caller userId amount p Hp).
    destruct (fails 0%nat); [done|].
    destruct (Qgtb _ _); [done|].
    repeat (destruct (fails _); [done|]).
    destruct (profiles d !! userId) as [target|] eqn:Ht; [|done].
    assert (balances_ok (deposited d userId amount target)).
    { apply balances_ok_update_profile; [|done].
      apply Hb in Ht. simpl in Ht. lra. }
    repeat (destruct (fails _); [done|]). done.
Qed.

Lemma balances_stay_nonnegative_witness :
  (∀ job_id now,
     balances_ok (PayJob reliable Scenario.store 1 job_id now).2) ∧
  (∀ userId amount, (0 <= amount)%Q →
     balances_ok (Deposit reliable Scenario.store 1 userId amount).2).
Proof.
  apply (balances_stay_nonnegative reliable Scenario.store 1);
    apply (bool_decide_unpack _); vm_compute; exact I.
Defined.

(** C6, as stated, fails on a deposit: on the worked store, whose balances
    are all non-negative, depositing -500 to profile 1 is accepted and
    leaves it a balance below zero. *)
Lemma Deposit_breaks_nonnegative_balance :
  balances_ok Scenario.store ∧
  prices_ok Scenario.store ∧
  (Deposit reliable Scenario.store 1 1 (-500)).1 = status_end 200 ∧
  balance <$> profiles (Deposit reliable Scenario.store 1 1 (-500)).2 !! 1
    = Some (100 + (-500))%Q ∧
  ¬ balances_ok (Deposit reliable Scenario.store 1 1 (-500)).2.
Proof.
  split; [apply (bool_decide_unpack _); vm_compute; exact I|].
  split; [apply (bool_decide_unpack _); vm_compute; exact I|].
  split; [by vm_compute|]. split; [by vm_compute|].
  intros H. specialize (H 1 _ eq_refl). by vm_compute in H.
Qed.

(** *** Grouping and ranking *)

Section GroupBy.

Context {K : Type} `{EqDecision K} (key : JoinedJob → K).

Lemma add_row_keys r groups :
  keys key (add_row key r groups) =
  if decide (key r ∈ keys key groups) then keys key groups
  else (keys key groups ++ [key r])%list.
Proof.
  induction groups as [|g groups IH].
  - destruct (decide (key r ∈ keys key [])) as [Hin|_]; [|done].
    by apply elem_of_nil in Hin.
  - cbn [add_row].
    destruct (decide (key (fst g) = key r)) as [Heq|Hne].
    + rewrite decide_True; [done|]. rewrite <- Heq. left.
    + change (keys key (g :: add_row key r groups))
        with (key (fst g) :: keys key (add_row key r groups)).
      rewrite IH.
      change (keys key (g :: groups)) with (key (fst g) :: keys key groups).
      destruct (decide (key r ∈ keys key groups)) as [Hin|Hin].
      * rewrite decide_True; [done|]. by right.
      * rewrite decide_False; [done|].
        intros [?|?]%elem_of_cons; [congruence|done].
Qed.

Lemma add_row_NoDup r groups :
  NoDup (keys key groups) → NoDup (keys key (add_row key r groups)).
Proof.
  intros Hnd. rewrite add_row_keys. case_decide as Hin; [done|].
  apply NoDup_app. split; [done|]. split.
  - intros k Hk [->|?%elem_of_nil]%elem_of_cons; done.
  - apply NoDup_singleton.
Qed.

Lemma add_row_elem_of_keys r groups k :
  k ∈ keys key (add_row key r groups) ↔ k ∈ keys key groups ∨ k = key r.
Proof.
  rewrite add_row_keys. case_decide as Hin.
  - split; [by left|]. by intros [?| ->].
  - rewrite elem_of_app, list_elem_of_singleton. done.
Qed.

Lemma add_row_representative r groups g :
  g ∈ add_row key r groups →
  fst g = r ∨ ∃ g', g' ∈ groups ∧ fst g' = fst g.
Proof.
  induction groups as [|g0 groups IH]; simpl.
  - intros ->%list_elem_of_singleton. by left.
  - destruct (decide (key (fst g0) = key r)).
    + intros [->|?]%elem_of_cons; right.
      * exists g0. split; [left|done].
      * exists g. split; [by right|done].
    + intros [->|Hin]%elem_of_cons.
      * right. exists g0. split; [left|done].
      * destruct (IH Hin) as [?|(g'&?&?)]; [by left|].
        right. exists g'. split; [by right|done].
Qed.

Lemma add_row_total r groups k :
  (total_where key k (add_row key r groups) ==
   total_where key k groups + (if decide (key r = k) then price (row r) else 0))%Q.
Proof.
  induction groups as [|g groups IH]; simpl.
  - destruct (decide (key r = k)); ring.
  - destruct (decide (key (fst g) = key r)) as [Heq|Hne]; simpl.
    + rewrite Heq. destruct (decide (key r = k)); ring.
    + destruct (decide (key (fst g) = k)); rewrite IH; ring.
Qed.

Lemma fold_add_row_NoDup rows groups :
  NoDup (keys key groups) →
  NoDup (keys key (fold_left (λ groups r, add_row key r groups) rows groups)).
Proof.
  revert groups. induction rows as [|r rows IH]; intros groups Hnd; [done|].
  simpl. by apply IH, add_row_NoDup.
Qed.

Lemma fold_add_row_elem_of_keys rows groups k :
  k ∈ keys key (fold_left (λ groups r, add_row key r groups) rows groups) ↔
  k ∈ keys key groups ∨ k ∈ key <$> rows.
Proof.
  revert groups. induction rows as [|r rows IH]; intros groups; simpl.
  - split; [by left|]. by intros [?|?%elem_of_nil].
  - rewrite IH, add_row_elem_of_keys, elem_of_cons. tauto.
Qed.

Lemma fold_add_row_representative rows groups g :
  g ∈ fold_left (λ groups r, add_row key r groups) rows groups →
  fst g ∈ rows ∨ ∃ g', g' ∈ groups ∧ fst g' = fst g.
Proof.
  revert groups. induction rows as [|r rows IH]; intros groups; simpl.
  - intros Hin. right. by exists g.
  - intros Hin. destruct (IH _ Hin) as [?|(g'&Hg'&Heq)]; [left; by right|].
    destruct (add_row_representative _ _ _ Hg') as [<-|(g''&?&?)].
    + left. rewrite Heq. left.
    + right. exists g''. split; [done|]. congruence.
Qed.

Lemma fold_add_row_total rows groups k :
  (total_where key k (fold_left (λ groups r, add_row key r groups) rows groups)
   == total_where key k groups + sum_where key k rows)%Q.
Proof.
  revert groups. induction rows as [|r rows IH]; intros groups; simpl.
  - ring.
  - rewrite IH, add_row_total. destruct (decide (key r = k)); ring.
Qed.

Lemma group_by_NoDup rows : NoDup (keys key (group_by key rows)).
Proof. apply fold_add_row_NoDup, NoDup_nil_2. Qed.

Lemma group_by_elem_of_keys rows k :
  k ∈ keys key (group_by key rows) ↔ k ∈ key <$> rows.
Proof.
  unfold group_by. rewrite fold_add_row_elem_of_keys.
  split; [by intros [?%elem_of_nil|?]|by right].
Qed.

Lemma group_by_representative rows g :
  g ∈ group_by key rows → fst g ∈ rows.
Proof.
  intros Hin. destruct (fold_add_row_representative _ _ _ Hin)
    as [?|(g'&?%elem_of_nil&_)]; done.
Qed.

Lemma group_by_total rows k :
  (total_where key k (group_by key rows) == sum_where key k rows)%Q.
Proof.
  unfold group_by. rewrite fold_add_row_total. simpl. ring.
Qed.

(** With one group per key, the total held for a group's key is the
    group's own. *)
Lemma total_where_absent groups k :
  k ∉ keys key groups → (total_where key k groups == 0)%Q.
Proof.
  induction groups as [|g groups IH]; simpl; [reflexivity|].
  intros Hk. apply not_elem_of_cons in Hk as [Hne Hk].
  rewrite decide_False by done. by apply IH.
Qed.

Lemma total_where_NoDup groups g :
  NoDup (keys key groups) → g ∈ groups →
  (total_where key (key (fst g)) groups == snd g)%Q.
Proof.
  induction groups as [|g0 groups IH]; simpl.
  - by intros _ ?%elem_of_nil.
  - intros [Hnotin Hnd]%NoDup_cons [->|Hin]%elem_of_cons.
    + rewrite decide_True by done.
      rewrite (total_where_absent groups _) by done. ring.
    + rewrite decide_False.
      * by apply IH.
      * intros Heq. apply Hnotin. rewrite Heq.
        apply list_elem_of_fmap. by exists g.
Qed.

Lemma total_where_Permutation groups groups' k :
  groups ≡ₚ groups' →
  (total_where key k groups == total_where key k groups')%Q.
Proof.
  induction 1 as [|g l l' _ IH|g g' l|l l' l'' _ IH1 _ IH2]; simpl.
  - reflexivity.
  - destruct (decide (key (fst g) = k)); rewrite IH; reflexivity.
  - destruct (decide (key (fst g) = k)), (decide (key (fst g') = k)); ring.
  - by rewrite IH1.
Qed.

End GroupBy.

(** *** Reporting *)

Lemma paid_between_in_window start end_ j :
  paid_between start end_ j = true ↔ in_window start end_ j.
Proof.
  unfold paid_between, in_window.
  rewrite andb_true_iff, bool_decide_eq_true.
  destruct (paymentDate j) as [at_|].
  - rewrite andb_true_iff, !Z.leb_le. split.
    + intros (?&?&?). eauto.
    + by intros (?&at'&[= <-]&?&?).
  - split; [by intros [_ ?]|]. by intros (?&at'&?&?).
Qed.

Lemma elem_of_paid_jobs_between start end_ d j :
  j ∈ paid_jobs_between start end_ d ↔
  (∃ i, jobs d !! i = Some j) ∧ in_window start end_ j.
Proof.
  unfold paid_jobs_between.
  rewrite list_elem_of_In, filter_In, <- list_elem_of_In.
  rewrite paid_between_in_window, list_elem_of_fmap.
  split; intros [Hj ?]; (split; [|done]).
  - destruct Hj as ([i j']&->&Hin). exists i.
    by apply elem_of_map_to_list in Hin.
  - destruct Hj as [i Hj]. exists (i, j). split; [done|].
    by apply elem_of_map_to_list.
Qed.

Lemma profession_key_with_Contractor d j :
  profession_key (with_Contractor d j) = contractor_profession d j.
Proof.
  unfold profession_key, with_Contractor, contractor_profession. simpl.
  destruct (contracts d !! ContractId j) as [c|]; [|done]. simpl.
  by destruct (profiles d !! ContractorId c).
Qed.

Lemma client_key_with_Client d j :
  client_key (with_Client d j) = client_of d j.
Proof.
  unfold client_key, with_Client, client_of. simpl.
  destruct (contracts d !! ContractId j) as [c|]; [|done]. simpl.
  by destruct (profiles d !! ClientId c).
Qed.

(** The sum a group holds is the sum over the jobs the query selects. *)
Lemma sum_where_selected {K} `{EqDecision K} (key : JoinedJob → K)
    (join : Job → JoinedJob) (P : Job → Prop) `{∀ j, Decision (P j)}
    (f : Job → bool) (k : K) (l : list Job) :
  (∀ j, row (join j) = j) →
  (∀ j, f j = true ↔ P j) →
  (sum_where key k (join <$> List.filter f l) ==
   sum_of_prices (filter (λ j, P j ∧ key (join j) = k) l))%Q.
Proof.
  intros Hrow Hf. induction l as [|j l IH]; [reflexivity|].
  simpl. rewrite filter_cons. destruct (f j) eqn:Efj.
  - apply Hf in Efj. csimpl.
    destruct (decide (key (join j) = k)) as [Hk|Hk].
    + rewrite decide_True by done. simpl. rewrite IH, Hrow. reflexivity.
    + rewrite decide_False by (by intros [_ ?]). apply IH.
  - rewrite decide_False; [apply IH|].
    intros [HP _]. apply Hf in HP. congruence.
Qed.

(** A stored job of a well-formed store joins to its contract and to both
    of the contract's profiles. *)
Lemma joined_rows_ok d i j :
  references_ok d → jobs d !! i = Some j →
  ∃ c client contractor,
    contracts d !! ContractId j = Some c ∧
    profiles d !! ClientId c = Some client ∧
    profiles d !! ContractorId c = Some contractor.
Proof.
  intros [Hjobs Hcontracts] Hj.
  destruct (Hjobs i j Hj) as [c Hc].
  destruct (Hcontracts _ c Hc) as ([client ?]&[contractor ?]&_).
  by exists c, client, contractor.
Qed.

Lemma StronglySorted_Forall2 {A B} (R1 : relation A) (R2 : relation B)
    (P : A → B → Prop) l k :
  (∀ x y x' y', P x x' → P y y' → R1 x y → R2 x' y') →
  Forall2 P l k → StronglySorted R1 l → StronglySorted R2 k.
Proof.
  intros HR HF. induction HF as [|x x' l k Hx HF IH]; [constructor|].
  intros [Hs Hall]%StronglySorted_inv. constructor; [by apply IH|].
  clear IH Hs. induction HF as [|y y' l k Hy HF IH]; [constructor|].
  apply Forall_cons in Hall as [Hxy Hall]. constructor; eauto.
Qed.

Lemma Forall2_fmap_eq {A B C} (f : A → C) (g : B → C) (P : A → B → Prop) l k :
  (∀ x y, P x y → f x = g y) → Forall2 P l k → f <$> l = g <$> k.
Proof.
  intros HP. induction 1 as [|x y l k Hxy _ IH]; [done|].
  csimpl. by rewrite (HP x y Hxy), IH.
Qed.

Lemma Forall2_elem_of_r {A B} (P : A → B → Prop) l k y :
  Forall2 P l k → y ∈ k → ∃ x, x ∈ l ∧ P x y.
Proof.
  induction 1 as [|x y' l k Hxy _ IH]; [by intros ?%elem_of_nil|].
  intros [->|Hin]%elem_of_cons.
  - exists x. split; [left|done].
  - destruct (IH Hin) as (x'&?&?). exists x'. split; [by right|done].
Qed.

Lemma profession_entry_Some g e :
  profession_entry g = Some e →
  profession_key (fst g) = Some (BestProfession.profession e) ∧
  BestProfession.jobs_paid_sum e = snd g.
Proof.
  unfold profession_entry, profession_key.
  destruct (row_Contract (fst g)); [|done]. simpl.
  destruct (row_Profile (fst g)); [|done]. simpl.
  by intros [= <-].
Qed.

Lemma client_entry_Some g e :
  client_entry g = Some e →
  client_key (fst g) = Some (BestClients.id e) ∧
  BestClients.paid e = snd g ∧
  ∃ p, row_Profile (fst g) = Some p ∧
       BestClients.fullName e = firstName p +:+ " " +:+ lastName p.
Proof.
  unfold client_entry, client_key.
  destruct (row_Contract (fst g)); [|done]. simpl.
  destruct (row_Profile (fst g)) as [p|]; [|done]. simpl.
  intros [= <-]. simpl. eauto.
Qed.

Section ReportFacts.

Context {E : Engine} {L : EngineLaws E}.

Lemma BestProfession_run fails d caller start end_ p :
  profiles d !! caller = Some p →
  BestProfession fails d caller start end_ =
  if fails 0%nat then (unanswered, d)
  else match mapM profession_entry (find_professions start end_ d) with
       | Some result => (json result, d)
       | None => (unanswered, d)
       end.
Proof.
  intros Hp. unfold BestProfession, getProfile. rewrite Hp. run.
  destruct (fails 0%nat); [done|]. by destruct (mapM _ _).
Qed.

Lemma BestClients_run fails d caller start end_ limit p :
  profiles d !! caller = Some p →
  BestClients fails d caller start end_ limit =
  if fails 0%nat then (unanswered, d)
  else match find_clients start end_ (or_2 limit) d with
       | None => (unanswered, d)
       | Some clients =>
           match mapM client_entry clients with
           | Some result => (json result, d)
           | None => (unanswered, d)
           end
       end.
Proof.
  intros Hp. unfold BestClients, getProfile. rewrite Hp. run.
  destruct (fails 0%nat); [done|].
  destruct (find_clients _ _ _ _); [|done]. by destruct (mapM _ _).
Qed.

(** The rows the engine returns for best-profession. *)
Lemma find_professions_Permutation start end_ d :
  find_professions start end_ d ≡ₚ
  group_by profession_key
    (with_Contractor d <$> paid_jobs_between start end_ d).
Proof. apply order_desc_perm. Qed.

Lemma find_professions_joined start end_ d g :
  references_ok d →
  g ∈ find_professions start end_ d →
  is_Some (profession_entry g).
Proof.
  intros Hrefs Hg. rewrite find_professions_Permutation in Hg.
  apply group_by_representative, list_elem_of_fmap in Hg as (j&Hj&Hin).
  apply elem_of_paid_jobs_between in Hin as [[i Hi] _].
  destruct (joined_rows_ok d i j Hrefs Hi) as (c&client&payee&Hc&_&Hpayee).
  unfold profession_entry. rewrite Hj. unfold with_Contractor. simpl.
  rewrite Hc. simpl. rewrite Hpayee. simpl. eauto.
Qed.

End ReportFacts.

(** C8, as the code has it.  On a well-formed store that answers the query,
    best-profession returns one entry per profession of a contractor with a
    job paid within [start, end], for exactly those professions; the entry
    holds the sum of [price] over exactly those jobs; the entries come by
    non-increasing sum; and the result is empty, without error, when no job
    matches.  Nothing is said of the order among equal sums. *)
Theorem BestProfession_ranking {E : Engine} {L : EngineLaws E}
    d caller start end_ p :
  profiles d !! caller = Some p →
  references_ok d →
  ∃ result,
    BestProfession reliable d caller start end_ = (json result, d) ∧
    NoDup (BestProfession.profession <$> result) ∧
    (∀ prof, prof ∈ BestProfession.profession <$> result ↔
       ∃ i j, jobs d !! i = Some j ∧ in_window start end_ j ∧
              contractor_profession d j = Some prof) ∧
    (∀ entry, entry ∈ result →
       (BestProfession.jobs_paid_sum entry ==
        paid_to_profession d start end_ (BestProfession.profession entry))%Q) ∧
    StronglySorted
      (λ a b, (BestProfession.jobs_paid_sum b
               <= BestProfession.jobs_paid_sum a)%Q) result ∧
    ((∀ i j, jobs d !! i = Some j → ¬ in_window start end_ j) →
     result = []).
Proof.
  intros Hp Hrefs.
  rewrite (BestProfession_run reliable d caller start end_ p Hp).
  cbn [reliable].
  pose proof (find_professions_Permutation start end_ d) as Hperm.
  set (rows := with_Contractor d <$> paid_jobs_between start end_ d) in *.
  set (G := find_professions start end_ d) in *.
  destruct (mapM_is_Some_2 profession_entry G) as [result Hresult].
  { apply Forall_forall. intros g Hg.
    by apply (find_professions_joined start end_ d). }
  rewrite Hresult. exists result. split; [done|].
  apply mapM_Some in Hresult.
  assert (keys profession_key G
          = (λ e, Some (BestProfession.profession e)) <$> result) as Hkeys.
  { unfold keys. apply (Forall2_fmap_eq _ _ _ _ _ ltac:(
      intros g e He; by apply profession_entry_Some in He as [-> _]) Hresult). }
  assert (∀ prof, prof ∈ BestProfession.profession <$> result ↔
            ∃ i j, jobs d !! i = Some j ∧ in_window start end_ j ∧
                   contractor_profession d j = Some prof) as Hmem.
  { intros prof.
    transitivity (Some prof ∈ keys profession_key G).
    - rewrite Hkeys, !list_elem_of_fmap. split.
      + intros (e&->&?). by exists e.
      + intros (e&[= ->]&?). by exists e.
    - unfold keys. rewrite Hperm. fold (keys profession_key
        (group_by profession_key rows)).
      rewrite group_by_elem_of_keys. unfold rows.
      rewrite <- list_fmap_compose, list_elem_of_fmap. split.
      + intros (j&Hk&Hj). apply elem_of_paid_jobs_between in Hj as [[i Hi] ?].
        exists i, j. simpl in Hk.
        by rewrite profession_key_with_Contractor in Hk.
      + intros (i&j&Hi&?&Hk). exists j. split.
        * simpl. by rewrite profession_key_with_Contractor.
        * apply elem_of_paid_jobs_between. eauto. }
  split; [|split; [done|split; [|split]]].
  - apply (NoDup_fmap_1 Some). rewrite <- list_fmap_compose.
    change (Some ∘ BestProfession.profession)
      with (λ e, Some (BestProfession.profession e)).
    rewrite <- Hkeys. unfold keys. rewrite Hperm.
    apply (group_by_NoDup profession_key).
  - intros entry Hentry.
    destruct (Forall2_elem_of_r _ _ _ _ Hresult Hentry) as (g&Hg&He).
    apply profession_entry_Some in He as [Hk ->].
    rewrite <- (total_where_NoDup profession_key G g); [|
      unfold keys; rewrite Hperm; apply (group_by_NoDup profession_key)|done].
    rewrite (total_where_Permutation profession_key _ _ _ Hperm).
    rewrite group_by_total, Hk. unfold rows, paid_jobs_between.
    rewrite (sum_where_selected profession_key (with_Contractor d)
               (in_window start end_));
      [|done|apply paid_between_in_window].
    unfold paid_to_profession.
    erewrite list_filter_iff; [reflexivity|].
    intros j. simpl. by rewrite profession_key_with_Contractor.
  - eapply (StronglySorted_Forall2
              (λ a b, (total_amount b <= total_amount a)%Q) _ _ G result);
      [|exact Hresult|apply order_desc_sorted].
    intros g g' e e' [_ ->]%profession_entry_Some
      [_ ->]%profession_entry_Some. done.
  - intros Hnone. destruct result as [|entry result]; [done|].
    assert (BestProfession.profession entry
            ∈ BestProfession.profession <$> entry :: result) as Hin
      by (csimpl; left).
    apply Hmem in Hin as (i&j&Hi&Hw&_). by destruct (Hnone i j).
Qed.

Lemma BestProfession_ranking_witness :
  ∃ result,
    BestProfession (E := stable_engine) reliable Paid.store 1 0 10
      = (json result, Paid.store) ∧
    NoDup (BestProfession.profession <$> result) ∧
    (∀ prof, prof ∈ BestProfession.profession <$> result ↔
       ∃ i j, jobs Paid.store !! i = Some j ∧ in_window 0 10 j ∧
              contractor_profession Paid.store j = Some prof) ∧
    (∀ entry, entry ∈ result →
       (BestProfession.jobs_paid_sum entry ==
        paid_to_profession Paid.store 0 10
          (BestProfession.profession entry))%Q) ∧
    StronglySorted
      (λ a b, (BestProfession.jobs_paid_sum b
               <= BestProfession.jobs_paid_sum a)%Q) result ∧
    ((∀ i j, jobs Paid.store !! i = Some j → ¬ in_window 0 10 j) →
     result = []).
Proof.
  apply (BestProfession_ranking (L := insertion_engine_laws true) Paid.store 1 0 10
           (mkProfile "Harry" "Potter" "Wizard" 100 client));
    [reflexivity | apply (bool_decide_unpack _); vm_compute; exact I].
Defined.

(** C8, as stated, fails on the order among equal totals.  The query asks
    for [ORDER BY total_amount DESC] and no more; an engine that is free
    within that returns Programmer before Musician, both at 30. *)
Lemma BestProfession_ties_not_by_name :
  EngineLaws reversing_engine ∧
  references_ok Paid.store ∧
  ∃ result,
    BestProfession (E := reversing_engine) reliable Paid.store 1 0 10
      = (json result, Paid.store) ∧
    BestProfession.profession <$> result = ["Programmer"; "Musician"] ∧
    BestProfession.jobs_paid_sum <$> result = [30%Q; 30%Q] ∧
    ¬ ranked_with_ties_by_name result.
Proof.
  split; [apply insertion_engine_laws|].
  split; [apply (bool_decide_unpack _); vm_compute; exact I|].
  eexists. split; [vm_compute; reflexivity|]. split; [reflexivity|].
  split; [reflexivity|].
  intros [_ Hall]%StronglySorted_inv.
  apply Forall_cons in Hall as [[Hlt|[_ Hleb]] _].
  - by vm_compute in Hlt.
  - by vm_compute in Hleb.
Qed.

Lemma elem_of_paying_clients d start end_ c :
  c ∈ paying_clients d start end_ ↔
  ∃ i j, jobs d !! i = Some j ∧ in_window start end_ j ∧
         client_of d j = Some c.
Proof.
  unfold paying_clients.
  rewrite elem_of_list_to_set, list_elem_of_omap. split.
  - intros (j&[Hw Hj]%list_elem_of_filter&Hc).
    apply list_elem_of_fmap in Hj as ([i j']&->&Hin).
    apply elem_of_map_to_list in Hin. by exists i, j'.
  - intros (i&j&Hj&Hw&Hc). exists j. split; [|done].
    apply list_elem_of_filter. split; [done|].
    apply list_elem_of_fmap. exists (i, j). split; [done|].
    by apply elem_of_map_to_list.
Qed.

Lemma numeral_not_empty z : numeral z ≠ EmptyString.
Proof.
  unfold numeral. destruct z as [|q|q]; [done| |done].
  simpl. pose proof (DecimalPos.Unsigned.to_uint_nonnil q).
  by destruct (Pos.to_uint q).
Qed.

Lemma or_2_numeral z : or_2 (Some (numeral z)) = limit_text (numeral z).
Proof.
  pose proof (numeral_not_empty z). unfold or_2.
  by destruct (numeral z).
Qed.

Lemma limit_rows_of_nat {A} (n : nat) (rows : list A) :
  limit_rows (Z.of_nat n) rows = take n rows.
Proof.
  unfold limit_rows.
  destruct (Z.ltb_spec (Z.of_nat n) 0); [lia|]. by rewrite Nat2Z.id.
Qed.

Lemma mapM_take {A B} (f : A → option B) l k n :
  mapM f l = Some k → mapM f (take n l) = Some (take n k).
Proof. rewrite !mapM_Some. apply Forall2_take. Qed.

Lemma client_entry_joined g e :
  client_entry g = Some e →
  ∃ c p, row_Contract (fst g) = Some c ∧ row_Profile (fst g) = Some p ∧
         BestClients.id e = ClientId c ∧
         BestClients.fullName e = firstName p +:+ " " +:+ lastName p.
Proof.
  unfold client_entry.
  destruct (row_Contract (fst g)) as [c|]; [|done]. simpl.
  destruct (row_Profile (fst g)) as [p|]; [|done]. simpl.
  intros [= <-]. simpl. eauto 10.
Qed.

Section ClientFacts.

Context {E : Engine} {L : EngineLaws E}.

Lemma ranked_clients_Permutation start end_ d :
  ranked_clients start end_ d ≡ₚ
  group_by client_key (with_Client d <$> paid_jobs_between start end_ d).
Proof. apply order_desc_perm. Qed.

Lemma ranked_clients_joined start end_ d g :
  references_ok d →
  g ∈ ranked_clients start end_ d →
  ∃ j c p, fst g = with_Client d j ∧
           contracts d !! ContractId j = Some c ∧
           profiles d !! ClientId c = Some p.
Proof.
  intros Hrefs Hg. rewrite ranked_clients_Permutation in Hg.
  apply group_by_representative, list_elem_of_fmap in Hg as (j&Hj&Hin).
  apply elem_of_paid_jobs_between in Hin as [[i Hi] _].
  destruct (joined_rows_ok d i j Hrefs Hi) as (c&p&_&Hc&Hp&_).
  by exists j, c, p.
Qed.

Lemma find_clients_number start end_ n d :
  find_clients start end_ (limit_number n) d
  = Some (limit_rows n (ranked_clients start end_ d)).
Proof. done. Qed.

Lemma find_clients_numeral start end_ z d :
  find_clients start end_ (limit_text (numeral z)) d
  = Some (limit_rows z (ranked_clients start end_ d)).
Proof. unfold find_clients. by rewrite to_integer_numeral. Qed.

End ClientFacts.

(** C7.  On a well-formed store that answers the query there is one ranking
    of the clients with a job paid within the window: one entry per client,
    holding the client's id, first and last name joined by one space, and
    the sum paid, by non-increasing sum.  Best-clients returns nothing of it
    for [limit=0], its first two entries when [limit] is absent, its first
    [n] for [limit=n], and so all of it once [n] is at least the number of
    those clients. *)
Theorem BestClients_limit {E : Engine} {L : EngineLaws E}
    d caller start end_ p :
  profiles d !! caller = Some p →
  references_ok d →
  ∃ ranking,
    NoDup (BestClients.id <$> ranking) ∧
    (∀ c, c ∈ BestClients.id <$> ranking ↔ c ∈ paying_clients d start end_) ∧
    length ranking = size (paying_clients d start end_) ∧
    (∀ entry, entry ∈ ranking →
       (BestClients.paid entry
        == paid_by_client d start end_ (BestClients.id entry))%Q ∧
       ∃ c, profiles d !! BestClients.id entry = Some c ∧
            BestClients.fullName entry = firstName c +:+ " " +:+ lastName c) ∧
    StronglySorted
      (λ a b, (BestClients.paid b <= BestClients.paid a)%Q) ranking ∧
    BestClients reliable d caller start end_ (Some "0") = (json [], d) ∧
    BestClients reliable d caller start end_ None
      = (json (take 2 ranking), d) ∧
    (∀ n : nat,
       BestClients reliable d caller start end_ (Some (numeral (Z.of_nat n)))
       = (json (take n ranking), d)) ∧
    (∀ n : nat, (size (paying_clients d start end_) ≤ n)%nat →
       BestClients reliable d caller start end_ (Some (numeral (Z.of_nat n)))
       = (json ranking, d)).
Proof.
  intros Hp Hrefs.
  pose proof (ranked_clients_Permutation start end_ d) as Hperm.
  set (rows := with_Client d <$> paid_jobs_between start end_ d) in *.
  set (G := ranked_clients start end_ d) in *.
  destruct (mapM_is_Some_2 client_entry G) as [ranking Hranking].
  { apply Forall_forall. intros g Hg.
    destruct (ranked_clients_joined start end_ d g Hrefs Hg)
      as (j&c&q&Hj&Hc&Hq).
    change (is_Some (client_entry g)).
    unfold client_entry. rewrite Hj. unfold with_Client. simpl.
    rewrite Hc. simpl. rewrite Hq. simpl. eauto. }
  exists ranking.
  pose proof Hranking as HF. apply mapM_Some in HF.
  assert (keys client_key G
          = (λ e, Some (BestClients.id e)) <$> ranking) as Hkeys.
  { unfold keys. apply (Forall2_fmap_eq _ _ _ _ _ ltac:(
      intros g e He; by apply client_entry_Some in He as [-> _]) HF). }
  assert (NoDup (keys client_key G)) as HnodupG.
  { unfold keys. rewrite Hperm. apply (group_by_NoDup client_key). }
  assert (NoDup (BestClients.id <$> ranking)) as Hnodup.
  { apply (NoDup_fmap_1 Some). rewrite <- list_fmap_compose.
    change (Some ∘ BestClients.id) with (λ e, Some (BestClients.id e)).
    by rewrite <- Hkeys. }
  assert (∀ c, c ∈ BestClients.id <$> ranking
               ↔ c ∈ paying_clients d start end_) as Hmem.
  { intros c. rewrite elem_of_paying_clients.
    transitivity (Some c ∈ keys client_key G).
    - rewrite Hkeys, !list_elem_of_fmap. split.
      + intros (e&->&?). by exists e.
      + intros (e&[= ->]&?). by exists e.
    - unfold keys. rewrite Hperm.
      fold (keys client_key (group_by client_key rows)).
      rewrite group_by_elem_of_keys. unfold rows.
      rewrite <- list_fmap_compose, list_elem_of_fmap. split.
      + intros (j&Hk&Hj). apply elem_of_paid_jobs_between in Hj as [[i Hi] ?].
        exists i, j. simpl in Hk. by rewrite client_key_with_Client in Hk.
      + intros (i&j&Hi&?&Hk). exists j. split.
        * simpl. by rewrite client_key_with_Client.
        * apply elem_of_paid_jobs_between. eauto. }
  assert (length ranking = size (paying_clients d start end_)) as Hlen.
  { rewrite <- (length_fmap BestClients.id).
    rewrite <- (size_list_to_set (C := gset Z)) by done.
    f_equal. apply set_eq. intros c. by rewrite elem_of_list_to_set. }
  assert (∀ n : nat,
            BestClients reliable d caller start end_
              (Some (numeral (Z.of_nat n)))
            = (json (take n ranking), d)) as Hn.
  { intros n.
    rewrite (BestClients_run reliable d caller start end_ _ p Hp).
    cbn [reliable]. rewrite or_2_numeral, find_clients_numeral.
    rewrite limit_rows_of_nat. fold G.
    by rewrite (mapM_take _ _ _ n Hranking). }
  split; [done|]. split; [done|]. split; [done|].
  split; [|split; [|split; [|split; [|split; [done|]]]]].
  - intros entry Hentry.
    destruct (Forall2_elem_of_r _ _ _ _ HF Hentry) as (g&Hg&He).
    split.
    + apply client_entry_Some in He as (Hk&->&_).
      rewrite <- (total_where_NoDup client_key G g) by done.
      rewrite (total_where_Permutation client_key _ _ _ Hperm).
      rewrite group_by_total, Hk. unfold rows, paid_jobs_between.
      rewrite (sum_where_selected client_key (with_Client d)
                 (in_window start end_));
        [|done|apply paid_between_in_window].
      unfold paid_by_client.
      erewrite list_filter_iff; [reflexivity|].
      intros j. simpl. by rewrite client_key_with_Client.
    + apply client_entry_joined in He as (c&q&Hc&Hq&Hid&Hname).
      destruct (ranked_clients_joined start end_ d g Hrefs Hg)
        as (j&c'&q'&Hj&Hc'&Hq').
      rewrite Hj in Hc, Hq. unfold with_Client in Hc, Hq. simpl in Hc, Hq.
      rewrite Hc' in Hc, Hq. simpl in Hq. simplify_eq.
      exists q. by rewrite Hid.
  - eapply (StronglySorted_Forall2
              (λ a b, (total_amount b <= total_amount a)%Q) _ _ G ranking);
      [|exact HF|apply order_desc_sorted].
    intros g g' e e' (_&->&_)%client_entry_Some (_&->&_)%client_entry_Some.
    done.
  - change "0" with (numeral (Z.of_nat 0)). by rewrite Hn.
  - rewrite (BestClients_run reliable d caller start end_ _ p Hp).
    cbn [reliable or_2]. rewrite find_clients_number.
    change 2 with (Z.of_nat 2). rewrite limit_rows_of_nat. fold G.
    by rewrite (mapM_take _ _ _ 2%nat Hranking).
  - intros n Hsize. rewrite Hn, take_ge; [done|lia].
Qed.

Lemma BestClients_limit_witness :
  ∃ ranking,
    NoDup (BestClients.id <$> ranking) ∧
    (∀ c, c ∈ BestClients.id <$> ranking ↔ c ∈ paying_clients Paid.store 0 100) ∧
    length ranking = size (paying_clients Paid.store 0 100) ∧
    (∀ entry, entry ∈ ranking →
       (BestClients.paid entry
        == paid_by_client Paid.store 0 100 (BestClients.id entry))%Q ∧
       ∃ c, profiles Paid.store !! BestClients.id entry = Some c ∧
            BestClients.fullName entry = firstName c +:+ " " +:+ lastName c) ∧
    StronglySorted
      (λ a b, (BestClients.paid b <= BestClients.paid a)%Q) ranking ∧
    BestClients (E := stable_engine) reliable Paid.store 1 0 100 (Some "0")
      = (json [], Paid.store) ∧
    BestClients (E := stable_engine) reliable Paid.store 1 0 100 None
      = (json (take 2 ranking), Paid.store) ∧
    (∀ n : nat,
       BestClients (E := stable_engine) reliable Paid.store 1 0 100
         (Some (numeral (Z.of_nat n)))
       = (json (take n ranking), Paid.store)) ∧
    (∀ n : nat, (size (paying_clients Paid.store 0 100) ≤ n)%nat →
       BestClients (E := stable_engine) reliable Paid.store 1 0 100
         (Some (numeral (Z.of_nat n)))
       = (json ranking, Paid.store)).
Proof.
  apply (BestClients_limit (L := insertion_engine_laws true) Paid.store 1 0 100
           (mkProfile "Harry" "Potter" "Wizard" 100 client));
    [reflexivity | apply (bool_decide_unpack _); vm_compute; exact I].
Defined.

(** The worked store: two clients paid within [0, 100]; [limit=1] keeps the
    first, [limit=0] none, and an absent or empty [limit] both. *)
Example BestClients_on_the_worked_store :
  (BestClients (E := stable_engine) reliable Paid.store 1 0 100 (Some "1")).1
    = json [BestClients.mkEntry 1 "Harry Potter" 70] ∧
  (BestClients (E := stable_engine) reliable Paid.store 1 0 100 (Some "0")).1
    = json [] ∧
  (BestClients (E := stable_engine) reliable Paid.store 1 0 100 None).1
    = json [BestClients.mkEntry 1 "Harry Potter" 70;
            BestClients.mkEntry 3 "Mr Robot" 30] ∧
  (BestClients (E := stable_engine) reliable Paid.store 1 0 100
     (Some EmptyString)).1
    = json [BestClients.mkEntry 1 "Harry Potter" 70;
            BestClients.mkEntry 3 "Mr Robot" 30].
Proof. vm_compute. done. Qed.



(** ** Further properties *)

(** *** The reading routes *)

Lemma GetContract_run fails d caller id p :
  profiles d !! caller = Some p →
  GetContract fails d caller id =
  if fails 0%nat then (unanswered, d)
  else match find_contract id caller d with
       | None => (status_end 404, d)
       | Some c => (json (id, c), d)
       end.
Proof.
  intros Hp. unfold GetContract, getProfile, contract_handler. rewrite Hp. run.
  destruct (fails 0%nat); [done|]. by destruct (find_contract _ _ _).
Qed.

Lemma ListContracts_run fails d caller p :
  profiles d !! caller = Some p →
  ListContracts fails d caller =
  if fails 0%nat then (unanswered, d)
  else (json (find_contracts caller d), d).
Proof.
  intros Hp. unfold ListContracts, getProfile, contracts_handler.
  rewrite Hp. run. by destruct (fails 0%nat).
Qed.

Lemma ListUnpaidJobs_run fails d caller p :
  profiles d !! caller = Some p →
  ListUnpaidJobs fails d caller =
  if fails 0%nat then (unanswered, d)
  else (json (find_unpaid_jobs caller d), d).
Proof.
  intros Hp. unfold ListUnpaidJobs, getProfile, unpaid_handler.
  rewrite Hp. run. by destruct (fails 0%nat).
Qed.

Lemma find_contract_Some id caller d c :
  find_contract id caller d = Some c ↔
  contracts d !! id = Some c ∧ party caller c.
Proof.
  unfold find_contract. destruct (contracts d !! id) as [c'|].
  - case_decide as Hparty.
    + split; [by intros [= <-]|]. by intros [[= <-] _].
    + split; [done|]. intros [[= <-] ?]. done.
  - split; [done|]. by intros [? _].
Qed.

Lemma elem_of_find_contracts caller d i c :
  (i, c) ∈ find_contracts caller d ↔
  contracts d !! i = Some c ∧ party caller c.
Proof.
  unfold find_contracts.
  rewrite list_elem_of_filter, elem_of_map_to_list. simpl. tauto.
Qed.

Lemma find_contracts_NoDup caller d : NoDup (fst <$> find_contracts caller d).
Proof.
  unfold find_contracts.
  pose proof (NoDup_fst_map_to_list (contracts d)) as Hnd.
  induction (map_to_list (contracts d)) as [|ic l IH]; [constructor|].
  rewrite fmap_cons in Hnd. apply NoDup_cons in Hnd as [Hnotin Hnd].
  rewrite filter_cons. case_decide; [|by apply IH].
  rewrite fmap_cons. apply NoDup_cons. split; [|by apply IH].
  intros Hin. apply Hnotin.
  apply list_elem_of_fmap in Hin as (ic'&->&Hin).
  apply list_elem_of_filter in Hin as [_ Hin].
  apply list_elem_of_fmap. by exists ic'.
Qed.

Lemma join_unpaid_Some caller d ij r :
  join_unpaid caller d ij = Some r ↔
  unpaid_id r = fst ij ∧ unpaid_job r = snd ij ∧
  paid (snd ij) = None ∧
  contracts d !! ContractId (snd ij) = Some (unpaid_Contract r) ∧
  party caller (unpaid_Contract r) ∧
  status (unpaid_Contract r) = in_progress.
Proof.
  unfold join_unpaid. split.
  - case_decide; [|done].
    destruct (contracts d !! ContractId (snd ij)) as [c|] eqn:Ec; [|done].
    case_decide as Hc; [|done]. destruct Hc. intros [= <-]. by simpl.
  - destruct r as [i j c]. simpl. intros (->&->&Hpaid&Hc&Hparty&Hs).
    rewrite decide_True, Hc, decide_True by done. by destruct ij.
Qed.

Lemma elem_of_find_unpaid_jobs caller d r :
  r ∈ find_unpaid_jobs caller d ↔
  jobs d !! unpaid_id r = Some (unpaid_job r) ∧
  paid (unpaid_job r) = None ∧
  contracts d !! ContractId (unpaid_job r) = Some (unpaid_Contract r) ∧
  party caller (unpaid_Contract r) ∧
  status (unpaid_Contract r) = in_progress.
Proof.
  unfold find_unpaid_jobs. rewrite list_elem_of_omap. split.
  - intros ([i j]&Hin&Hr). apply elem_of_map_to_list in Hin.
    apply join_unpaid_Some in Hr as (->&->&?&?&?&?). by simpl in *.
  - intros (Hj&?&?&?&?). exists (unpaid_id r, unpaid_job r).
    split; [by apply elem_of_map_to_list|]. by apply join_unpaid_Some.
Qed.

Lemma find_unpaid_jobs_NoDup caller d :
  NoDup (unpaid_id <$> find_unpaid_jobs caller d).
Proof.
  unfold find_unpaid_jobs.
  pose proof (NoDup_fst_map_to_list (jobs d)) as Hnd.
  induction (map_to_list (jobs d)) as [|ij l IH]; [constructor|].
  rewrite fmap_cons in Hnd. apply NoDup_cons in Hnd as [Hnotin Hnd].
  simpl. destruct (join_unpaid caller d ij) as [r|] eqn:Er; [|by apply IH].
  rewrite fmap_cons. apply NoDup_cons. split; [|by apply IH].
  apply join_unpaid_Some in Er as (Hid&_). rewrite Hid.
  intros Hin. apply Hnotin.
  apply list_elem_of_fmap in Hin as (r'&Hr'&Hin).
  apply list_elem_of_omap in Hin as (ij'&Hin&Hj).
  apply join_unpaid_Some in Hj as (Hid'&_).
  apply list_elem_of_fmap. exists ij'. split; [congruence|done].
Qed.

(** X1.  [GET /contracts/:id] hands a contract out to its two parties and to
    no one else: once the lookup is answered, the reply is the stored
    contract exactly when the caller is its client or its contractor, and
    404 otherwise, so that a contract of other people is answered like an
    absent one. *)
Theorem GetContract_parties_only fails d caller id p :
  fails 0%nat = false →
  profiles d !! caller = Some p →
  (∀ c, (GetContract fails d caller id).1 = json (id, c) ↔
        contracts d !! id = Some c ∧
        (ContractorId c = caller ∨ ClientId c = caller)) ∧
  ((GetContract fails d caller id).1 = status_end 404 ↔
     ∀ c, contracts d !! id = Some c →
          ContractorId c ≠ caller ∧ ClientId c ≠ caller) ∧
  (∀ id' c, contracts d !! id' = None →
     contracts d !! id = Some c →
     ContractorId c ≠ caller → ClientId c ≠ caller →
     (GetContract fails d caller id).1 = (GetContract fails d caller id').1).
Proof.
  intros F0 Hp. split; [|split].
  - intros c. rewrite (GetContract_run fails d caller id p Hp), F0.
    rewrite <- (find_contract_Some id caller d c).
    destruct (find_contract id caller d) as [c'|]; simpl; [|done].
    split; by intros [= ->].
  - rewrite (GetContract_run fails d caller id p Hp), F0.
    destruct (find_contract id caller d) as [c'|] eqn:Ef; simpl.
    + apply find_contract_Some in Ef as [Hc [?|?]]; (split; [done|]);
        intros Hall; destruct (Hall c' Hc); done.
    + split; [|done]. intros _ c Hc.
      assert (¬ party caller c) as Hn.
      { intros Hparty.
        assert (find_contract id caller d = Some c) as Hs
          by (by apply find_contract_Some).
        congruence. }
      unfold party in Hn. tauto.
  - intros id' c Hnone Hc Hn1 Hn2.
    rewrite !(GetContract_run fails d caller _ p Hp), F0.
    unfold find_contract. rewrite Hnone, Hc.
    rewrite decide_False; [done|]. unfold party. tauto.
Qed.

Lemma GetContract_parties_only_witness :
  (∀ c, (GetContract reliable Paid.store 1 10).1 = json (10, c) ↔
        contracts Paid.store !! 10 = Some c ∧
        (ContractorId c = 1 ∨ ClientId c = 1)) ∧
  ((GetContract reliable Paid.store 1 10).1 = status_end 404 ↔
     ∀ c, contracts Paid.store !! 10 = Some c →
          ContractorId c ≠ 1 ∧ ClientId c ≠ 1) ∧
  (∀ id' c, contracts Paid.store !! id' = None →
     contracts Paid.store !! 10 = Some c →
     ContractorId c ≠ 1 → ClientId c ≠ 1 →
     (GetContract reliable Paid.store 1 10).1
       = (GetContract reliable Paid.store 1 id').1).
Proof.
  apply (GetContract_parties_only reliable Paid.store 1 10
           (mkProfile "Harry" "Potter" "Wizard" 100 client)); reflexivity.
Defined.

(** X2.  [GET /contracts] lists the caller's contracts, each once, whatever
    their status, and nothing else; with none to list the reply is the
    empty list, never 404. *)
Theorem ListContracts_of_the_caller fails d caller p :
  fails 0%nat = false →
  profiles d !! caller = Some p →
  ∃ result,
    ListContracts fails d caller = (json result, d) ∧
    NoDup (fst <$> result) ∧
    (∀ i c, (i, c) ∈ result ↔
       contracts d !! i = Some c ∧
       (ContractorId c = caller ∨ ClientId c = caller)) ∧
    ((∀ i c, contracts d !! i = Some c →
             ContractorId c ≠ caller ∧ ClientId c ≠ caller) →
     result = []).
Proof.
  intros F0 Hp. exists (find_contracts caller d).
  rewrite (ListContracts_run fails d caller p Hp), F0.
  split; [done|]. split; [apply find_contracts_NoDup|].
  split; [apply elem_of_find_contracts|].
  intros Hnone. destruct (find_contracts caller d) as [|[i c] l] eqn:E; [done|].
  assert ((i, c) ∈ find_contracts caller d) as Hin by (rewrite E; left).
  apply elem_of_find_contracts in Hin as [Hc Hparty].
  destruct (Hnone i c Hc). unfold party in Hparty. tauto.
Qed.

Lemma ListContracts_of_the_caller_witness :
  ∃ result,
    ListContracts reliable Paid.store 4 = (json result, Paid.store) ∧
    NoDup (fst <$> result) ∧
    (∀ i c, (i, c) ∈ result ↔
       contracts Paid.store !! i = Some c ∧
       (ContractorId c = 4 ∨ ClientId c = 4)) ∧
    ((∀ i c, contracts Paid.store !! i = Some c →
             ContractorId c ≠ 4 ∧ ClientId c ≠ 4) →
     result = []).
Proof.
  apply (ListContracts_of_the_caller reliable Paid.store 4
           (mkProfile "Linus" "Torvalds" "Programmer" 0 contractor));
    reflexivity.
Defined.

(** X3.  The two contract routes agree: a contract is served by
    [GET /contracts/:id] exactly when [GET /contracts] lists it. *)
Theorem GetContract_iff_listed fails d caller id c p :
  fails 0%nat = false →
  profiles d !! caller = Some p →
  ((GetContract fails d caller id).1 = json (id, c) ↔
   ∃ result, (ListContracts fails d caller).1 = json result ∧
             (id, c) ∈ result).
Proof.
  intros F0 Hp.
  rewrite (GetContract_run fails d caller id p Hp),
          (ListContracts_run fails d caller p Hp), F0. simpl.
  split.
  - destruct (find_contract id caller d) as [c'|] eqn:Ef; simpl; [|done].
    intros [= ->]. exists (find_contracts caller d). split; [done|].
    apply elem_of_find_contracts. by apply find_contract_Some.
  - intros (result&[= <-]&Hin).
    apply elem_of_find_contracts, find_contract_Some in Hin. by rewrite Hin.
Qed.

Lemma GetContract_iff_listed_witness :
  (GetContract reliable Paid.store 3 11).1
    = json (11, mkContract in_progress 3 4) ↔
  ∃ result, (ListContracts reliable Paid.store 3).1 = json result ∧
            (11, mkContract in_progress 3 4) ∈ result.
Proof.
  apply (GetContract_iff_listed reliable Paid.store 3 11
           (mkContract in_progress 3 4)
           (mkProfile "Mr" "Robot" "Hacker" 100 client)); reflexivity.
Defined.

(** X4.  [GET /jobs/unpaid] lists, each once, exactly the stored jobs with
    [paid] unset whose contract is in progress and has the caller as client
    or contractor; every row carries that contract. *)
Theorem ListUnpaidJobs_of_the_caller fails d caller p :
  fails 0%nat = false →
  profiles d !! caller = Some p →
  ∃ result,
    ListUnpaidJobs fails d caller = (json result, d) ∧
    NoDup (unpaid_id <$> result) ∧
    (∀ i j c, mkUnpaidJob i j c ∈ result ↔
       jobs d !! i = Some j ∧ paid j = None ∧
       contracts d !! ContractId j = Some c ∧
       (ContractorId c = caller ∨ ClientId c = caller) ∧
       status c = in_progress).
Proof.
  intros F0 Hp. exists (find_unpaid_jobs caller d).
  rewrite (ListUnpaidJobs_run fails d caller p Hp), F0.
  split; [done|]. split; [apply find_unpaid_jobs_NoDup|].
  intros i j c. apply (elem_of_find_unpaid_jobs caller d (mkUnpaidJob i j c)).
Qed.

Lemma ListUnpaidJobs_of_the_caller_witness :
  ∃ result,
    ListUnpaidJobs reliable Debt.store 2 = (json result, Debt.store) ∧
    NoDup (unpaid_id <$> result) ∧
    (∀ i j c, mkUnpaidJob i j c ∈ result ↔
       jobs Debt.store !! i = Some j ∧ paid j = None ∧
       contracts Debt.store !! ContractId j = Some c ∧
       (ContractorId c = 2 ∨ ClientId c = 2) ∧
       status c = in_progress).
Proof.
  apply (ListUnpaidJobs_of_the_caller reliable Debt.store 2
           (mkProfile "John" "Lenon" "Musician" 0 contractor)); reflexivity.
Defined.

(** *** Paying a job, further *)

Lemma contracts_marked d caller job_id now p r payee :
  contracts (marked d caller job_id now p r payee) = contracts d.
Proof. done. Qed.

Lemma jobs_marked d caller job_id now p r payee i :
  jobs (marked d caller job_id now p r payee) !! i =
  if decide (job_id = i) then set_paid now <$> jobs d !! job_id
  else jobs d !! i.
Proof. unfold marked. by rewrite jobs_update_job. Qed.

Lemma profiles_credited d caller p r payee k :
  profiles (credited d caller p r payee) !! k =
  if decide (ContractorId (Contract_ r) = k)
  then set_balance (balance payee + price (job r)) <$>
         (if decide (caller = ContractorId (Contract_ r))
          then set_balance (balance p - price (job r)) <$> profiles d !! caller
          else profiles d !! ContractorId (Contract_ r))
  else if decide (caller = k)
       then set_balance (balance p - price (job r)) <$> profiles d !! caller
       else profiles d !! k.
Proof.
  unfold credited, debited. by rewrite !profiles_update_profile.
Qed.

Lemma profiles_marked d caller job_id now p r payee k :
  profiles (marked d caller job_id now p r payee) !! k =
  profiles (credited d caller p r payee) !! k.
Proof. done. Qed.

(** A 200 reply comes with the three writes in place. *)
Lemma PayJob_200 fails d caller job_id now p :
  profiles d !! caller = Some p →
  (PayJob fails d caller job_id now).1 = status_end 200 →
  ∃ r payee,
    find_payable job_id caller d = Some r ∧
    Contractor r = Some payee ∧
    (price (job r) <= balance p)%Q ∧
    PayJob fails d caller job_id now
      = (status_end 200, marked d caller job_id now p r payee).
Proof.
  intros Hp. rewrite (PayJob_trace fails d caller job_id now p Hp).
  destruct (fails 0%nat); [done|].
  destruct (find_payable job_id caller d) as [r|] eqn:Ef; [|done].
  destruct (Qgtb _ _) eqn:Eq; [done|]. apply Qgtb_false in Eq.
  repeat (destruct (fails _); [done|]).
  destruct (Contractor r) as [payee|] eqn:Ec; [|done].
  repeat (destruct (fails _); [done|]).
  intros _. by exists r, payee.
Qed.

(** On a store that refuses no call, the conditions of payment give the
    three writes. *)
Lemma PayJob_reliable_marked d caller job_id now p r payee :
  profiles d !! caller = Some p →
  find_payable job_id caller d = Some r →
  Contractor r = Some payee →
  (price (job r) <= balance p)%Q →
  PayJob reliable d caller job_id now
    = (status_end 200, marked d caller job_id now p r payee).
Proof.
  intros Hp Hf Hpayee Hle.
  rewrite (PayJob_trace reliable d caller job_id now p Hp), Hf, Hpayee.
  apply Qgtb_false in Hle. by rewrite Hle.
Qed.

Lemma ListUnpaidJobs_json fails d caller result :
  (ListUnpaidJobs fails d caller).1 = json result →
  is_Some (profiles d !! caller) ∧ result = find_unpaid_jobs caller d.
Proof.
  destruct (profiles d !! caller) as [p|] eqn:Hp.
  - rewrite (ListUnpaidJobs_run fails d caller p Hp).
    destruct (fails 0%nat); [done|]. intros [= <-]. eauto.
  - unfold ListUnpaidJobs, getProfile. by rewrite Hp.
Qed.

(** X5.  What a client sees in [GET /jobs/unpaid] it can pay: on a
    well-formed store that refuses no call, paying a listed job on which the
    caller is the client, with a balance that covers the price, is answered
    200. *)
Theorem listed_unpaid_job_is_payable d caller now result r :
  references_ok d →
  (ListUnpaidJobs reliable d caller).1 = json result →
  r ∈ result →
  ClientId (unpaid_Contract r) = caller →
  (∀ p, profiles d !! caller = Some p → (price (unpaid_job r) <= balance p)%Q) →
  (PayJob reliable d caller (unpaid_id r) now).1 = status_end 200 ∧
  paid <$> jobs (PayJob reliable d caller (unpaid_id r) now).2 !! unpaid_id r
    = Some (Some true).
Proof.
  intros [_ Hrefs] Hjson Hin Hclient Hfunds.
  apply ListUnpaidJobs_json in Hjson as [[p Hp] ->].
  apply elem_of_find_unpaid_jobs in Hin as (Hj&Hpaid&Hc&_&Hs).
  destruct (Hrefs _ _ Hc) as (_&[payee Hpayee]&_).
  rewrite (PayJob_reliable_marked d caller (unpaid_id r) now p
             {| job := unpaid_job r; Contract_ := unpaid_Contract r;
                Contractor := Some payee |} payee Hp); [| |done|by apply Hfunds].
  - split; [done|]. cbn [snd].
    by rewrite jobs_marked, decide_True, Hj.
  - apply find_payable_Some. simpl. by rewrite Hpayee.
Qed.

Lemma listed_unpaid_job_is_payable_witness :
  (PayJob reliable Scenario.store 1 7 1000).1 = status_end 200 ∧
  paid <$> jobs (PayJob reliable Scenario.store 1 7 1000).2 !! 7
    = Some (Some true).
Proof.
  apply (listed_unpaid_job_is_payable Scenario.store 1 1000
           [mkUnpaidJob 7 Scenario.J Scenario.K]
           (mkUnpaidJob 7 Scenario.J Scenario.K)).
  - apply (bool_decide_unpack _); vm_compute; exact I.
  - reflexivity.
  - left.
  - reflexivity.
  - intros p Hp. vm_compute in Hp. injection Hp as <-.
    unfold Qle; simpl; lia.
Defined.

(** X6.  A contractor cannot pay its own job: a job the caller sees in
    [GET /jobs/unpaid] without being the client of its contract is answered
    404 by the paying route, and nothing is written. *)
Theorem contractor_cannot_pay fails d caller now result r :
  fails 0%nat = false →
  (ListUnpaidJobs fails d caller).1 = json result →
  r ∈ result →
  ClientId (unpaid_Contract r) ≠ caller →
  PayJob fails d caller (unpaid_id r) now = (status_end 404, d).
Proof.
  intros F0 Hjson Hin Hclient.
  apply ListUnpaidJobs_json in Hjson as [[p Hp] ->].
  apply elem_of_find_unpaid_jobs in Hin as (Hj&Hpaid&Hc&_&Hs).
  rewrite (PayJob_trace fails d caller (unpaid_id r) now p Hp), F0.
  assert (find_payable (unpaid_id r) caller d = None) as ->; [|done].
  apply find_payable_None. right. exists (unpaid_job r). split; [done|].
  right. right. rewrite Hc. simpl. congruence.
Qed.

Lemma contractor_cannot_pay_witness :
  PayJob reliable Scenario.store 2 7 1000 = (status_end 404, Scenario.store).
Proof.
  apply (contractor_cannot_pay reliable Scenario.store 2 1000
           [mkUnpaidJob 7 Scenario.J Scenario.K]
           (mkUnpaidJob 7 Scenario.J Scenario.K)).
  - reflexivity.
  - reflexivity.
  - left.
  - simpl. lia.
Defined.

(** X7.  A paid job leaves every unpaid list: after a 200 reply of the
    paying route, each profile's [GET /jobs/unpaid] is what it was, less
    the job just paid. *)
Theorem paid_job_leaves_unpaid_lists fails d caller job_id now d' caller'
    before after :
  PayJob fails d caller job_id now = (status_end 200, d') →
  (ListUnpaidJobs reliable d caller').1 = json before →
  (ListUnpaidJobs reliable d' caller').1 = json after →
  ∀ r, r ∈ after ↔ r ∈ before ∧ unpaid_id r ≠ job_id.
Proof.
  intros Hpay Hbefore Hafter r.
  apply ListUnpaidJobs_json in Hbefore as [_ ->].
  apply ListUnpaidJobs_json in Hafter as [_ ->].
  destruct (profiles d !! caller) as [p|] eqn:Hp;
    [|by unfold PayJob, getProfile in Hpay; rewrite Hp in Hpay].
  destruct (PayJob_200 fails d caller job_id now p Hp) as (r0&payee&Hf&_&_&Heq);
    [by rewrite Hpay|].
  rewrite Hpay in Heq. injection Heq as ->.
  rewrite !elem_of_find_unpaid_jobs, contracts_marked, jobs_marked.
  apply find_payable_Some in Hf as (Hj0&_).
  destruct (decide (job_id = unpaid_id r)) as [<-|Hne].
  - rewrite Hj0. simpl. split.
    + intros ([= Hr]&Hpaid&_). rewrite <- Hr in Hpaid. done.
    + intros [_ ?]. done.
  - split; [intros ?; split; [done|congruence]|]. by intros [? _].
Qed.

Lemma paid_job_leaves_unpaid_lists_witness :
  mkUnpaidJob 7 Scenario.J Scenario.K ∈ [] ↔
  mkUnpaidJob 7 Scenario.J Scenario.K ∈ [mkUnpaidJob 7 Scenario.J Scenario.K] ∧
  unpaid_id (mkUnpaidJob 7 Scenario.J Scenario.K) ≠ 7.
Proof.
  apply (paid_job_leaves_unpaid_lists reliable Scenario.store 1 7 1000
           (PayJob reliable Scenario.store 1 7 1000).2 2
           [mkUnpaidJob 7 Scenario.J Scenario.K] []); reflexivity.
Defined.

(** X8.  No job is paid twice: after a 200 reply of the paying route, any
    further call on the same job, by any stored profile and at any time, is
    answered 404 and writes nothing. *)
Theorem paid_job_cannot_be_paid_again fails d caller job_id now d'
    fails' caller' now' :
  PayJob fails d caller job_id now = (status_end 200, d') →
  fails' 0%nat = false →
  is_Some (profiles d !! caller') →
  PayJob fails' d' caller' job_id now' = (status_end 404, d').
Proof.
  intros Hpay F0 [p' Hp'].
  destruct (profiles d !! caller) as [p|] eqn:Hp;
    [|by unfold PayJob, getProfile in Hpay; rewrite Hp in Hpay].
  destruct (PayJob_200 fails d caller job_id now p Hp) as (r0&payee&Hf&_&_&Heq);
    [by rewrite Hpay|].
  rewrite Hpay in Heq. injection Heq as ->.
  apply find_payable_Some in Hf as (Hj0&_).
  assert (is_Some (profiles (marked d caller job_id now p r0 payee) !! caller'))
    as [q Hq].
  { rewrite profiles_marked, profiles_credited.
    repeat case_decide; subst; rewrite ?Hp, ?Hp'; simpl; eauto. }
  rewrite (PayJob_trace fails' _ caller' job_id now' q Hq), F0.
  assert (find_payable job_id caller' (marked d caller job_id now p r0 payee)
          = None) as ->; [|done].
  apply find_payable_None. right. exists (set_paid now (job r0)).
  split; [by rewrite jobs_marked, decide_True, Hj0|]. by left.
Qed.

Lemma paid_job_cannot_be_paid_again_witness :
  PayJob reliable (PayJob reliable Scenario.store 1 7 1000).2 1 7 2000
    = (status_end 404, (PayJob reliable Scenario.store 1 7 1000).2).
Proof.
  apply (paid_job_cannot_be_paid_again reliable Scenario.store 1 7 1000
           (PayJob reliable Scenario.store 1 7 1000).2 reliable 1 2000);
    [reflexivity | reflexivity | vm_compute; eauto].
Defined.

Lemma identity_of_alter_set_balance (f : Profile → Q) i m k :
  identity_of <$> alter (λ p, set_balance (f p) p) i m !! k
  = identity_of <$> (m : gmap Z Profile) !! k.
Proof.
  rewrite lookup_alter. case_decide as Hk; [|done]. subst.
  by destruct (m !! k).
Qed.

Lemma identity_of_update_profile i b d k :
  identity_of <$> profiles (update_profile i (set_balance b) d) !! k
  = identity_of <$> profiles d !! k.
Proof.
  apply (identity_of_alter_set_balance (λ _, b)).
Qed.

(** What a run of the paying route can have written. *)
Lemma PayJob_frame fails d caller job_id now :
  contracts (PayJob fails d caller job_id now).2 = contracts d ∧
  (∀ i, i ≠ job_id →
     jobs (PayJob fails d caller job_id now).2 !! i = jobs d !! i) ∧
  (jobs (PayJob fails d caller job_id now).2 !! job_id = jobs d !! job_id ∨
   jobs (PayJob fails d caller job_id now).2 !! job_id
     = set_paid now <$> jobs d !! job_id) ∧
  (∀ k, k ≠ caller →
     (∀ j c, jobs d !! job_id = Some j →
             contracts d !! ContractId j = Some c → k ≠ ContractorId c) →
     profiles (PayJob fails d caller job_id now).2 !! k = profiles d !! k) ∧
  (∀ k, identity_of <$> profiles (PayJob fails d caller job_id now).2 !! k
        = identity_of <$> profiles d !! k).
Proof.
  destruct (profiles d !! caller) as [p|] eqn:Hp;
    [|unfold PayJob, getProfile; rewrite Hp; simpl; by eauto 10].
  destruct (PayJob_leaves fails d caller job_id now p Hp)
    as [->|(r&Hf&_&Hr)]; [by eauto 10|].
  apply find_payable_Some in Hf as (Hj&_&Hc&_&_&_).
  assert (∀ k, k ≠ caller →
            (∀ j c, jobs d !! job_id = Some j →
                    contracts d !! ContractId j = Some c →
                    k ≠ ContractorId c) →
            k ≠ caller ∧ k ≠ ContractorId (Contract_ r)) as Hother.
  { intros k ? Hk. split; [done|]. by apply (Hk (job r)). }
  destruct Hr as [->|(payee&_&[-> | ->])].
  - unfold debited. split; [done|]. split; [done|]. split; [by left|].
    split.
    + intros k Hk _. by rewrite profiles_update_profile, decide_False.
    + intros k. apply identity_of_update_profile.
  - unfold credited, debited. split; [done|]. split; [done|].
    split; [by left|]. split.
    + intros k Hk1 Hk2. destruct (Hother k Hk1 Hk2).
      by rewrite !profiles_update_profile, !decide_False.
    + intros k. by rewrite !identity_of_update_profile.
  - split; [done|]. split; [|split; [|split]].
    + intros i Hi. by rewrite jobs_marked, decide_False.
    + right. by rewrite jobs_marked, decide_True.
    + intros k Hk1 Hk2. destruct (Hother k Hk1 Hk2).
      rewrite profiles_marked. unfold credited, debited.
      by rewrite !profiles_update_profile, !decide_False.
    + intros k. rewrite profiles_marked. unfold credited, debited.
      by rewrite !identity_of_update_profile.
Qed.

(** X9.  The paying route writes two balances and one job and nothing else,
    whatever the store refuses: the contracts, the other jobs and the other
    profiles are as they were, the job named in the request is as it was or
    marked paid at [now], and no profile changes in anything but its
    balance. *)
Theorem PayJob_writes_nothing_else fails d caller job_id now :
  contracts (PayJob fails d caller job_id now).2 = contracts d ∧
  (∀ i, i ≠ job_id →
     jobs (PayJob fails d caller job_id now).2 !! i = jobs d !! i) ∧
  (jobs (PayJob fails d caller job_id now).2 !! job_id = jobs d !! job_id ∨
   jobs (PayJob fails d caller job_id now).2 !! job_id
     = set_paid now <$> jobs d !! job_id) ∧
  (∀ k, k ≠ caller →
     (∀ j c, jobs d !! job_id = Some j →
             contracts d !! ContractId j = Some c → k ≠ ContractorId c) →
     profiles (PayJob fails d caller job_id now).2 !! k = profiles d !! k) ∧
  (∀ k, identity_of <$> profiles (PayJob fails d caller job_id now).2 !! k
        = identity_of <$> profiles d !! k).
Proof. apply PayJob_frame. Qed.

(** A 200 reply: the job was stored unpaid and is left paid at [now]. *)
Lemma PayJob_200_paid fails d caller job_id now :
  (PayJob fails d caller job_id now).1 = status_end 200 →
  ∃ j, jobs d !! job_id = Some j ∧ paid j = None ∧
       jobs (PayJob fails d caller job_id now).2 !! job_id
         = Some (set_paid now j).
Proof.
  intros H200.
  destruct (profiles d !! caller) as [p|] eqn:Hp;
    [|by unfold PayJob, getProfile in H200; rewrite Hp in H200].
  destruct (PayJob_200 fails d caller job_id now p Hp H200)
    as (r&payee&Hf&_&_&->).
  apply find_payable_Some in Hf as (Hj&?&_).
  exists (job r). split; [done|]. split; [done|].
  cbn [snd]. by rewrite jobs_marked, decide_True, Hj.
Qed.



(** X11.  A 500 reply is not safe to retry.  When the store refuses the
    update of the job (call 5) the two balance updates stay and the job
    stays unpaid, so that the same request, sent again to a store that
    refuses nothing, is answered 200 and moves the price a second time. *)
Theorem PayJob_retry_charges_twice d caller job_id now now' p j c payee :
  profiles d !! caller = Some p →
  jobs d !! job_id = Some j →
  paid j = None →
  contracts d !! ContractId j = Some c →
  status c = in_progress →
  ClientId c = caller →
  profiles d !! ContractorId c = Some payee →
  ContractorId c ≠ ClientId c →
  (price j + price j <= balance p)%Q →
  (0 <= price j)%Q →
  (PayJob (refuses 5) d caller job_id now).1 = status_end 500 ∧
  (PayJob reliable (PayJob (refuses 5) d caller job_id now).2
     caller job_id now').1 = status_end 200 ∧
  balance <$> profiles
    (PayJob reliable (PayJob (refuses 5) d caller job_id now).2
       caller job_id now').2 !! caller
    = Some (balance p - price j - price j)%Q ∧
  balance <$> profiles
    (PayJob reliable (PayJob (refuses 5) d caller job_id now).2
       caller job_id now').2 !! ContractorId c
    = Some (balance payee + price j + price j)%Q.
Proof.
  intros Hp Hj Hpaid Hc Hs Hcl Hpayee Hne Hle Hpos.
  set (r := {| job := j; Contract_ := c; Contractor := Some payee |}).
  assert (find_payable job_id caller d = Some r) as Hf
    by (apply find_payable_Some; simpl; rewrite Hpayee; done).
  destruct (PayJob_partial_writes d caller job_id now p r payee 5 Hp Hf)
    as [H500 Hd1]; [simpl; lra|done|lia|].
  rewrite H500, Hd1. split; [done|].
  set (d1 := credited d caller p r payee).
  set (p1 := set_balance (balance p - price j) p).
  set (payee1 := set_balance (balance payee + price j) payee).
  assert (profiles d1 !! caller = Some p1) as Hp1.
  { unfold d1. rewrite profiles_credited. simpl.
    rewrite decide_False by congruence.
    by rewrite decide_True, Hp by done. }
  assert (profiles d1 !! ContractorId c = Some payee1) as Hpayee1.
  { unfold d1. rewrite profiles_credited. simpl.
    rewrite decide_True by done.
    by rewrite decide_False, Hpayee by congruence. }
  set (r1 := {| job := j; Contract_ := c; Contractor := Some payee1 |}).
  assert (find_payable job_id caller d1 = Some r1) as Hf1.
  { apply find_payable_Some. unfold r1. cbn [job Contract_ Contractor].
    rewrite Hpayee1.
    change (jobs d1) with (jobs d). change (contracts d1) with (contracts d).
    done. }
  rewrite (PayJob_reliable_marked d1 caller job_id now' p1 r1 payee1
             Hp1 Hf1 eq_refl) by (simpl; lra).
  split; [done|]. cbn [snd].
  rewrite !profiles_marked, !profiles_credited. unfold r1.
  cbn [job Contract_ Contractor].
  rewrite (decide_False (P := ContractorId c = caller)) by congruence.
  rewrite !decide_True by done.
  rewrite (decide_False (P := caller = ContractorId c)) by congruence.
  rewrite Hp1, Hpayee1. simpl. split; f_equal.
Qed.

Lemma PayJob_retry_charges_twice_witness :
  (PayJob (refuses 5) Scenario.store 1 7 1000).1 = status_end 500 ∧
  (PayJob reliable (PayJob (refuses 5) Scenario.store 1 7 1000).2
     1 7 2000).1 = status_end 200 ∧
  balance <$> profiles
    (PayJob reliable (PayJob (refuses 5) Scenario.store 1 7 1000).2
       1 7 2000).2 !! 1
    = Some (100 - 30 - 30)%Q ∧
  balance <$> profiles
    (PayJob reliable (PayJob (refuses 5) Scenario.store 1 7 1000).2
       1 7 2000).2 !! 2
    = Some (0 + 30 + 30)%Q.
Proof.
  apply (PayJob_retry_charges_twice Scenario.store 1 7 1000 2000
           Scenario.C Scenario.J Scenario.K Scenario.T);
    try reflexivity;
    [simpl; lia | unfold Qle; simpl; lia | unfold Qle; simpl; lia].
Defined.

(** *** Depositing, further *)

(** What a run of the deposit route can have written. *)
Lemma Deposit_frame fails d caller userId amount :
  contracts (Deposit fails d caller userId amount).2 = contracts d ∧
  jobs (Deposit fails d caller userId amount).2 = jobs d ∧
  (∀ k, k ≠ userId →
     profiles (Deposit fails d caller userId amount).2 !! k
     = profiles d !! k) ∧
  (∀ k, identity_of <$> profiles (Deposit fails d caller userId amount).2 !! k
        = identity_of <$> profiles d !! k) ∧
  (balance <$> profiles (Deposit fails d caller userId amount).2 !! userId
     = balance <$> profiles d !! userId ∨
   balance <$> profiles (Deposit fails d caller userId amount).2 !! userId
     = (λ t, balance t + amount)%Q <$> profiles d !! userId) ∧
  ((Deposit fails d caller userId amount).1 = status_end 200 →
   balance <$> profiles (Deposit fails d caller userId amount).2 !! userId
     = (λ t, balance t + amount)%Q <$> profiles d !! userId) ∧
  ((Deposit fails d caller userId amount).1 = status_end 400 →
   (Deposit fails d caller userId amount).2 = d).
Proof.
  pose (Good := λ r : Response () * DB,
    contracts r.2 = contracts d ∧
    jobs r.2 = jobs d ∧
    (∀ k, k ≠ userId → profiles r.2 !! k = profiles d !! k) ∧
    (∀ k, identity_of <$> profiles r.2 !! k
          = identity_of <$> profiles d !! k) ∧
    (balance <$> profiles r.2 !! userId = balance <$> profiles d !! userId ∨
     balance <$> profiles r.2 !! userId
       = (λ t, balance t + amount)%Q <$> profiles d !! userId) ∧
    (r.1 = status_end 200 →
     balance <$> profiles r.2 !! userId
       = (λ t, balance t + amount)%Q <$> profiles d !! userId) ∧
    (r.1 = status_end 400 → r.2 = d)).
  change (Good (Deposit fails d caller userId amount)).
  assert (∀ reply, reply ≠ status_end 200 → Good (reply, d)) as Hsame.
  { intros reply Hreply. unfold Good. simpl.
    repeat split; try done. by left. }
  assert (∀ reply target, profiles d !! userId = Some target →
            reply ≠ status_end 400 →
            Good (reply, deposited d userId amount target)) as Hdep.
  { intros reply target Ht Hreply. unfold Good, deposited. cbn [fst snd].
    assert (balance <$> profiles
              (update_profile userId
                 (set_balance (balance target + amount)) d) !! userId
            = (λ t, (balance t + amount)%Q) <$> profiles d !! userId) as Hb
      by (by rewrite profiles_update_profile, decide_True, Ht).
    split; [done|]. split; [done|].
    split; [|split; [|split; [by right|split; done]]].
    - intros k Hk. by rewrite profiles_update_profile, decide_False.
    - intros k. apply identity_of_update_profile. }
  destruct (profiles d !! caller) as [p|] eqn:Hp;
    [|unfold Deposit, getProfile; rewrite Hp; by apply Hsame].
  rewrite (Deposit_trace fails d caller userId amount p Hp).
  destruct (fails 0%nat); [by apply Hsame|].
  destruct (Qgtb _ _); [by apply Hsame|].
  destruct (fails 1%nat); [by apply Hsame|].
  destruct (fails 2%nat); [by apply Hsame|].
  destruct (profiles d !! userId) as [target|] eqn:Ht; [|by apply Hsame].
  destruct (fails 3%nat); [by apply Hsame|].
  destruct (fails 4%nat); by apply Hdep.
Qed.

(** X12.  The deposit route writes one balance and nothing else, whatever
    the store refuses: contracts and jobs are as they were, so is every
    profile but the target, the target changes in nothing but its balance,
    which is as it was or raised by the amount; and the reply is 200 only
    with the balance raised, 400 only with nothing written. *)
Theorem Deposit_writes_one_balance fails d caller userId amount :
  contracts (Deposit fails d caller userId amount).2 = contracts d ∧
  jobs (Deposit fails d caller userId amount).2 = jobs d ∧
  (∀ k, k ≠ userId →
     profiles (Deposit fails d caller userId amount).2 !! k
     = profiles d !! k) ∧
  (∀ k, identity_of <$> profiles (Deposit fails d caller userId amount).2 !! k
        = identity_of <$> profiles d !! k) ∧
  (balance <$> profiles (Deposit fails d caller userId amount).2 !! userId
     = balance <$> profiles d !! userId ∨
   balance <$> profiles (Deposit fails d caller userId amount).2 !! userId
     = (λ t, balance t + amount)%Q <$> profiles d !! userId) ∧
  ((Deposit fails d caller userId amount).1 = status_end 200 →
   balance <$> profiles (Deposit fails d caller userId amount).2 !! userId
     = (λ t, balance t + amount)%Q <$> profiles d !! userId) ∧
  ((Deposit fails d caller userId amount).1 = status_end 400 →
   (Deposit fails d caller userId amount).2 = d).
Proof. apply Deposit_frame. Qed.

(** X13.  A deposit to a user that is not stored never succeeds and writes
    nothing: once the lookup of the debt is answered, an amount above the
    limit is answered 400, and an amount within the limit 500, the route
    reading the balance of the row it did not find. *)
Theorem Deposit_to_unknown_user fails d caller userId amount p :
  profiles d !! caller = Some p →
  profiles d !! userId = None →
  (Deposit fails d caller userId amount).2 = d ∧
  (Deposit fails d caller userId amount).1 ≠ status_end 200 ∧
  (fails 0%nat = false →
   (depositLimit (find_unpaid_of userId d) < amount)%Q →
   (Deposit fails d caller userId amount).1 = status_end 400) ∧
  (fails 0%nat = false →
   (amount <= depositLimit (find_unpaid_of userId d))%Q →
   (Deposit fails d caller userId amount).1 = status_end 500).
Proof.
  intros Hp Hnone.
  rewrite (Deposit_trace fails d caller userId amount p Hp), Hnone.
  destruct (fails 0%nat); [done|].
  destruct (Qgtb _ _) eqn:Eq.
  - split; [done|]. split; [done|]. split; [done|]. intros _ Hle.
    apply Qgtb_false in Hle. congruence.
  - assert (∀ r : Response () * DB,
              (if fails 1%nat then (status_end 500, d)
               else if fails 2%nat then (status_end 500, d)
               else (status_end 500, d)) = r → r = (status_end 500, d))
      as Hrun.
    { intros r <-. by repeat (destruct (fails _)). }
    rewrite (Hrun _ eq_refl). split; [done|]. split; [done|].
    split; [|done]. intros _ Hgt. apply Qgtb_true in Hgt. congruence.
Qed.

Lemma Deposit_to_unknown_user_witness :
  (Deposit reliable Scenario.store 1 99 0).2 = Scenario.store ∧
  (Deposit reliable Scenario.store 1 99 0).1 ≠ status_end 200 ∧
  (reliable 0%nat = false →
   (depositLimit (find_unpaid_of 99 Scenario.store) < 0)%Q →
   (Deposit reliable Scenario.store 1 99 0).1 = status_end 400) ∧
  (reliable 0%nat = false →
   (0 <= depositLimit (find_unpaid_of 99 Scenario.store))%Q →
   (Deposit reliable Scenario.store 1 99 0).1 = status_end 500).
Proof.
  apply (Deposit_to_unknown_user reliable Scenario.store 1 99 0 Scenario.C);
    reflexivity.
Defined.

(** The two replies on the worked store, where user 99 is not stored and
    so has limit zero: a deposit of 1 is answered 400 and a deposit of 0
    is answered 500, and neither writes. *)
Example Deposit_to_a_user_not_stored :
  Deposit reliable Scenario.store 1 99 1 = (status_end 400, Scenario.store) ∧
  Deposit reliable Scenario.store 1 99 0 = (status_end 500, Scenario.store).
Proof. split; vm_compute; done. Qed.

(** X14.  The deposit route does not look at who calls: any two stored
    profiles depositing the same amount to the same user get the same reply
    and leave the same tables, so that a profile may raise the balance of
    another. *)
Theorem Deposit_ignores_the_caller fails d caller caller' userId amount :
  is_Some (profiles d !! caller) →
  is_Some (profiles d !! caller') →
  Deposit fails d caller userId amount = Deposit fails d caller' userId amount.
Proof.
  intros [p Hp] [p' Hp'].
  by rewrite (Deposit_trace fails d caller userId amount p Hp),
             (Deposit_trace fails d caller' userId amount p' Hp').
Qed.

Lemma Deposit_ignores_the_caller_witness :
  Deposit reliable Scenario.store 1 1 5 = Deposit reliable Scenario.store 2 1 5.
Proof.
  apply (Deposit_ignores_the_caller reliable Scenario.store 1 2 1 5);
    vm_compute; eauto.
Defined.

(** The sum of prices does not depend on the order of the rows. *)
Lemma sum_of_prices_Permutation l l' :
  l ≡ₚ l' → (sum_of_prices l == sum_of_prices l')%Q.
Proof.
  induction 1 as [|j l l' _ IH|j j' l|l l' l'' _ IH1 _ IH2]; simpl.
  - reflexivity.
  - rewrite IH. reflexivity.
  - ring.
  - by rewrite IH1.
Qed.

Lemma map_to_list_alter_job (g : Job → Job) i j (m : gmap Z Job) :
  m !! i = Some j →
  map_to_list (alter g i m) ≡ₚ (i, g j) :: map_to_list (delete i m).
Proof.
  intros Hj.
  assert (alter g i m = <[i := g j]> (delete i m)) as ->.
  { apply map_eq. intros k. rewrite lookup_alter, lookup_insert.
    case_decide as Hk; [by subst; rewrite Hj|].
    by rewrite lookup_delete_ne. }
  apply map_to_list_insert, lookup_delete_eq.
Qed.

(** Rewriting one row moves a filtered sum by what the row counted for
    before and counts for after. *)
Lemma sum_filter_alter (P : Job → Prop) `{∀ j, Decision (P j)}
    (g : Job → Job) i j (m : gmap Z Job) :
  m !! i = Some j →
  (sum_of_prices (filter P (snd <$> map_to_list (alter g i m)))
   + (if decide (P j) then price j else 0)
   == sum_of_prices (filter P (snd <$> map_to_list m))
      + (if decide (P (g j)) then price (g j) else 0))%Q.
Proof.
  intros Hj.
  rewrite (sum_of_prices_Permutation
             (filter P (snd <$> map_to_list (alter g i m)))
             (filter P (g j :: (snd <$> map_to_list (delete i m)))))
    by (by rewrite (map_to_list_alter_job g i j m Hj)).
  rewrite (sum_of_prices_Permutation
             (filter P (snd <$> map_to_list m))
             (filter P (j :: (snd <$> map_to_list (delete i m)))))
    by (by rewrite <- (map_to_list_delete m i j Hj)).
  rewrite !filter_cons.
  destruct (decide (P j)), (decide (P (g j))); simpl; ring.
Qed.

Lemma find_unpaid_of_outstanding userId d :
  find_unpaid_of userId d
  = filter (outstanding d userId) (snd <$> map_to_list (jobs d)).
Proof.
  unfold find_unpaid_of. apply filter_bool_Prop.
  intros j. apply owed_by_outstanding.
Qed.

(** X15.  Paying a job lowers the client's deposit limit by a quarter of the
    price: after a 200 reply of the paying route, the limit the deposit
    route computes for the payer is the former one less [0.25 * price], and
    that is the bound it then answers 400 above. *)
Theorem paying_lowers_the_deposit_limit fails d caller job_id now d' j
    fails' caller' amount :
  PayJob fails d caller job_id now = (status_end 200, d') →
  jobs d !! job_id = Some j →
  fails' 0%nat = false →
  is_Some (profiles d !! caller') →
  (depositLimit (find_unpaid_of caller d')
   == depositLimit (find_unpaid_of caller d) - 0.25 * price j)%Q ∧
  ((Deposit fails' d' caller' caller amount).1 = status_end 400 ↔
   (depositLimit (find_unpaid_of caller d) - 0.25 * price j < amount)%Q).
Proof.
  intros Hpay Hj F0 [p' Hp'].
  destruct (profiles d !! caller) as [p|] eqn:Hp;
    [|by unfold PayJob, getProfile in Hpay; rewrite Hp in Hpay].
  destruct (PayJob_200 fails d caller job_id now p Hp) as (r&payee&Hf&_&_&Heq);
    [by rewrite Hpay|].
  rewrite Hpay in Heq. injection Heq as ->.
  apply find_payable_Some in Hf as (Hj0&Hpaid&Hc&Hcl&Hs&_).
  rewrite Hj in Hj0. injection Hj0 as Hjr.
  assert (depositLimit
            (find_unpaid_of caller (marked d caller job_id now p r payee))
          == depositLimit (find_unpaid_of caller d) - 0.25 * price j)%Q
    as Hlimit.
  { unfold depositLimit. rewrite !totalJobsDebt_sum, !find_unpaid_of_outstanding.
    change (outstanding (marked d caller job_id now p r payee) caller)
      with (outstanding d caller).
    change (outstanding_dec (marked d caller job_id now p r payee) caller)
      with (outstanding_dec d caller).
    change (jobs (marked d caller job_id now p r payee))
      with (alter (set_paid now) job_id (jobs d)).
    pose proof (sum_filter_alter (outstanding d caller) (set_paid now)
                  job_id j (jobs d) Hj) as Hsum.
    rewrite decide_True in Hsum
      by (split; [congruence|exists (Contract_ r); subst j; done]).
    rewrite decide_False in Hsum by (by intros [? _]).
    rewrite Qplus_0_r in Hsum. rewrite <- Hsum. ring. }
  split; [done|].
  assert (is_Some (profiles (marked d caller job_id now p r payee) !! caller'))
    as [q Hq].
  { rewrite profiles_marked, profiles_credited.
    repeat case_decide; subst; rewrite ?Hp, ?Hp'; simpl; eauto. }
  rewrite (Deposit_trace fails' _ caller' caller amount q Hq), F0.
  rewrite <- Hlimit, <- Qgtb_true.
  destruct (Qgtb _ _); [done|]. split; [|done].
  repeat (destruct (fails' _); [done|]).
  destruct (profiles (marked d caller job_id now p r payee) !! caller);
    [|done].
  repeat (destruct (fails' _); [done|]). done.
Qed.

Lemma paying_lowers_the_deposit_limit_witness :
  (depositLimit (find_unpaid_of 1 (PayJob reliable Scenario.store 1 7 1000).2)
   == depositLimit (find_unpaid_of 1 Scenario.store) - 0.25 * 30)%Q ∧
  ((Deposit reliable (PayJob reliable Scenario.store 1 7 1000).2 1 1 5).1
     = status_end 400 ↔
   (depositLimit (find_unpaid_of 1 Scenario.store) - 0.25 * 30 < 5)%Q).
Proof.
  apply (paying_lowers_the_deposit_limit reliable Scenario.store 1 7 1000
           (PayJob reliable Scenario.store 1 7 1000).2 Scenario.J
           reliable 1 5);
    [reflexivity | reflexivity | reflexivity | vm_compute; eauto].
Defined.

(** X16.  The debt behind a user's deposit limit is read off its own unpaid
    list: the jobs the deposit route counts for a user are the jobs of its
    [GET /jobs/unpaid] on which it is the client, in the same order; those
    on which it is the contractor do not count. *)
Theorem deposit_counts_the_clients_unpaid_jobs fails d userId result :
  (ListUnpaidJobs fails d userId).1 = json result →
  find_unpaid_of userId d
    = unpaid_job <$>
        filter (λ r, ClientId (unpaid_Contract r) = userId) result ∧
  depositLimit (find_unpaid_of userId d)
    = depositLimit
        (unpaid_job <$>
           filter (λ r, ClientId (unpaid_Contract r) = userId) result).
Proof.
  intros Hjson. apply ListUnpaidJobs_json in Hjson as [_ ->].
  assert (find_unpaid_of userId d
          = unpaid_job <$>
              filter (λ r, ClientId (unpaid_Contract r) = userId)
                     (find_unpaid_jobs userId d)) as Heq; [|by rewrite <- Heq].
  unfold find_unpaid_of, find_unpaid_jobs.
  induction (map_to_list (jobs d)) as [|[i j] l IH]; [done|].
  cbn [fmap list_fmap omap list_omap List.filter snd].
  fold (@fmap list _ _ _ (@snd Z Job) l).
  fold (omap (join_unpaid userId d) l).
  unfold join_unpaid at 1, owed_by at 1. cbn [fst snd].
  destruct (decide (paid j = None)) as [Hpaid|Hpaid].
  - rewrite bool_decide_eq_true_2 by done. cbn [andb].
    destruct (contracts d !! ContractId j) as [c|]; [|exact IH].
    destruct (decide (ClientId c = userId ∧ status c = in_progress))
      as [[Hc Hs]|Hn].
    + rewrite bool_decide_eq_true_2 by done.
      rewrite decide_True by (split; [by right|done]).
      rewrite filter_cons, decide_True by done.
      rewrite fmap_cons. cbn [unpaid_job]. by rewrite IH.
    + rewrite bool_decide_eq_false_2 by done.
      destruct (decide (party userId c ∧ status c = in_progress))
        as [[_ Hs]|_]; [|exact IH].
      rewrite filter_cons, decide_False; [exact IH|].
      cbn [unpaid_Contract]. intros Hc. by apply Hn.
  - rewrite bool_decide_eq_false_2 by done. exact IH.
Qed.

Lemma deposit_counts_the_clients_unpaid_jobs_witness :
  find_unpaid_of 1 Debt.store
    = unpaid_job <$>
        filter (λ r, ClientId (unpaid_Contract r) = 1)
          (find_unpaid_jobs 1 Debt.store) ∧
  depositLimit (find_unpaid_of 1 Debt.store)
    = depositLimit
        (unpaid_job <$>
           filter (λ r, ClientId (unpaid_Contract r) = 1)
             (find_unpaid_jobs 1 Debt.store)).
Proof.
  apply (deposit_counts_the_clients_unpaid_jobs reliable Debt.store 1
           (find_unpaid_jobs 1 Debt.store)).
  reflexivity.
Defined.

(** *** What every route keeps *)

Lemma is_Some_identity_of (m m' : gmap Z Profile) k :
  identity_of <$> m' !! k = identity_of <$> m !! k →
  is_Some (m !! k) → is_Some (m' !! k).
Proof.
  intros Heq [p Hp]. rewrite Hp in Heq.
  destruct (m' !! k); [eauto|done].
Qed.

Lemma references_ok_kept d d' now :
  contracts d' = contracts d →
  (∀ i, jobs d' !! i = jobs d !! i ∨
        jobs d' !! i = set_paid now <$> jobs d !! i) →
  (∀ k, identity_of <$> profiles d' !! k = identity_of <$> profiles d !! k) →
  references_ok d → references_ok d'.
Proof.
  intros Hcontracts Hjobs Hprofiles [Hj Hc]. split.
  - intros i j' Hi. rewrite Hcontracts.
    destruct (Hjobs i) as [Heq|Heq]; rewrite Heq in Hi.
    + by apply (Hj i).
    + destruct (jobs d !! i) as [j|] eqn:Ej; [|done].
      simpl in Hi. injection Hi as <-. simpl. by apply (Hj i j).
  - rewrite Hcontracts. intros i c Hi.
    destruct (Hc i c Hi) as (?&?&?).
    split; [by apply (is_Some_identity_of (profiles d) (profiles d'))|].
    split; [by apply (is_Some_identity_of (profiles d) (profiles d'))|done].
Qed.

Lemma prices_ok_kept d d' now :
  (∀ i, jobs d' !! i = jobs d !! i ∨
        jobs d' !! i = set_paid now <$> jobs d !! i) →
  prices_ok d → prices_ok d'.
Proof.
  intros Hjobs Hprices i j' Hi.
  destruct (Hjobs i) as [Heq|Heq]; rewrite Heq in Hi.
  - by apply (Hprices i).
  - destruct (jobs d !! i) as [j|] eqn:Ej; [|done].
    simpl in Hi. injection Hi as <-. simpl. by apply (Hprices i j).
Qed.

Lemma PayJob_jobs fails d caller job_id now i :
  jobs (PayJob fails d caller job_id now).2 !! i = jobs d !! i ∨
  jobs (PayJob fails d caller job_id now).2 !! i
    = set_paid now <$> jobs d !! i.
Proof.
  destruct (PayJob_frame fails d caller job_id now) as (_&Hother&Hjob&_).
  destruct (decide (i = job_id)) as [->|Hne]; [done|].
  left. by apply Hother.
Qed.

(** X17.  The two writing routes keep the store well-formed, whatever the
    store refuses: after paying a job or depositing, every job still
    belongs to a stored contract, every contract still references two
    stored, distinct profiles, and every price is still positive. *)
Theorem writes_keep_the_store_well_formed fails d caller :
  references_ok d →
  prices_ok d →
  (∀ job_id now,
     references_ok (PayJob fails d caller job_id now).2 ∧
     prices_ok (PayJob fails d caller job_id now).2) ∧
  (∀ userId amount,
     references_ok (Deposit fails d caller userId amount).2 ∧
     prices_ok (Deposit fails d caller userId amount).2).
Proof.
  intros Hrefs Hprices. split.
  - intros job_id now.
    destruct (PayJob_frame fails d caller job_id now) as (Hc&_&_&_&Hid).
    pose proof (PayJob_jobs fails d caller job_id now) as Hjobs.
    split; [by eapply references_ok_kept|by eapply prices_ok_kept].
  - intros userId amount.
    destruct (Deposit_frame fails d caller userId amount)
      as (Hc&Hj&_&Hid&_).
    split.
    + eapply (references_ok_kept d _ 0); [done| |done|done].
      intros i. left. by rewrite Hj.
    + eapply (prices_ok_kept d _ 0); [|done].
      intros i. left. by rewrite Hj.
Qed.

Lemma writes_keep_the_store_well_formed_witness :
  (∀ job_id now,
     references_ok (PayJob reliable Scenario.store 1 job_id now).2 ∧
     prices_ok (PayJob reliable Scenario.store 1 job_id now).2) ∧
  (∀ userId amount,
     references_ok (Deposit reliable Scenario.store 1 userId amount).2 ∧
     prices_ok (Deposit reliable Scenario.store 1 userId amount).2).
Proof.
  apply (writes_keep_the_store_well_formed reliable Scenario.store 1);
    apply (bool_decide_unpack _); vm_compute; exact I.
Defined.

(** X18.  The five reading routes write nothing, whatever the store refuses
    and whoever calls. *)
Theorem reading_routes_write_nothing {E : Engine} fails d caller id start
    end_ limit :
  (GetContract fails d caller id).2 = d ∧
  (ListContracts fails d caller).2 = d ∧
  (ListUnpaidJobs fails d caller).2 = d ∧
  (BestProfession fails d caller start end_).2 = d ∧
  (BestClients fails d caller start end_ limit).2 = d.
Proof.
  destruct (profiles d !! caller) as [p|] eqn:Hp.
  - rewrite (GetContract_run fails d caller id p Hp),
            (ListContracts_run fails d caller p Hp),
            (ListUnpaidJobs_run fails d caller p Hp),
            (BestProfession_run fails d caller start end_ p Hp),
            (BestClients_run fails d caller start end_ limit p Hp).
    destruct (fails 0%nat); [done|].
    destruct (find_contract id caller d);
      destruct (mapM profession_entry _);
      destruct (find_clients _ _ _ _) as [clients|]; try done;
      by destruct (mapM client_entry clients).
  - unfold GetContract, ListContracts, ListUnpaidJobs, BestProfession,
      BestClients, getProfile. by rewrite Hp.
Qed.

Section EmptyWindow.

Context {E : Engine} {L : EngineLaws E}.

Lemma paid_jobs_between_inverted start end_ d :
  end_ < start → paid_jobs_between start end_ d = [].
Proof.
  intros Hlt. unfold paid_jobs_between.
  induction (snd <$> map_to_list (jobs d)) as [|j l IH]; [done|].
  simpl. destruct (paid_between start end_ j) eqn:Ej; [|done].
  apply paid_between_in_window in Ej as (_&at_&_&?&?). lia.
Qed.

Lemma order_desc_nil {A} (f : A → Q) : order_desc f [] = [].
Proof. apply Permutation_nil_r, order_desc_perm. Qed.

End EmptyWindow.

(** X19.  A window that ends before it starts selects no job: both reports
    then reply with the empty list, on any store, whether [limit] is absent
    or a decimal numeral. *)
Theorem reports_of_an_inverted_window {E : Engine} {L : EngineLaws E}
    d caller start end_ p :
  profiles d !! caller = Some p →
  end_ < start →
  BestProfession reliable d caller start end_ = (json [], d) ∧
  BestClients reliable d caller start end_ None = (json [], d) ∧
  (∀ n, BestClients reliable d caller start end_ (Some (numeral n))
        = (json [], d)).
Proof.
  intros Hp Hlt.
  rewrite (BestProfession_run reliable d caller start end_ p Hp).
  assert (ranked_clients start end_ d = []) as Hclients.
  { unfold ranked_clients. rewrite paid_jobs_between_inverted by done.
    apply order_desc_nil. }
  split; [|split].
  - unfold find_professions. rewrite paid_jobs_between_inverted by done.
    cbn [reliable fmap list_fmap group_by fold_left].
    by rewrite order_desc_nil.
  - rewrite (BestClients_run reliable d caller start end_ None p Hp).
    cbn [reliable or_2]. rewrite find_clients_number, Hclients.
    by destruct (limit_rows 2 []) eqn:El.
  - intros n.
    rewrite (BestClients_run reliable d caller start end_ _ p Hp).
    cbn [reliable]. rewrite or_2_numeral, find_clients_numeral, Hclients.
    unfold limit_rows. destruct (n <? 0); [done|]. by rewrite take_nil.
Qed.

Lemma reports_of_an_inverted_window_witness :
  BestProfession (E := stable_engine) reliable Paid.store 1 10 0
    = (json [], Paid.store) ∧
  BestClients (E := stable_engine) reliable Paid.store 1 10 0 None
    = (json [], Paid.store) ∧
  (∀ n, BestClients (E := stable_engine) reliable Paid.store 1 10 0
          (Some (numeral n))
        = (json [], Paid.store)).
Proof.
  apply (reports_of_an_inverted_window (L := insertion_engine_laws true)
           Paid.store 1 10 0
           (mkProfile "Harry" "Potter" "Wizard" 100 client));
    [reflexivity | lia].
Defined.

(** *** The reports, further *)

Lemma sum_of_Permutation {A} (f : A → Q) l l' :
  l ≡ₚ l' → (sum_of f l == sum_of f l')%Q.
Proof.
  induction 1 as [|x l l' _ IH|x y l|l l' l'' _ IH1 _ IH2]; simpl.
  - reflexivity.
  - rewrite IH. reflexivity.
  - ring.
  - by rewrite IH1.
Qed.

Lemma sum_of_Forall2 {A B} (f : A → Q) (g : B → Q) (P : A → B → Prop) l k :
  (∀ x y, P x y → g y = f x) → Forall2 P l k → sum_of g k = sum_of f l.
Proof.
  intros HP. induction 1 as [|x y l k Hxy _ IH]; [done|].
  simpl. rewrite (HP x y Hxy). f_equal. exact IH.
Qed.

Lemma add_row_sum {K} `{EqDecision K} (key : JoinedJob → K) r groups :
  (sum_of snd (add_row key r groups) == sum_of snd groups + price (row r))%Q.
Proof.
  induction groups as [|g groups IH]; simpl.
  - ring.
  - destruct (decide (key (fst g) = key r)); simpl.
    + ring.
    + rewrite IH. ring.
Qed.

Lemma fold_add_row_sum {K} `{EqDecision K} (key : JoinedJob → K) rows groups :
  (sum_of snd (fold_left (λ groups r, add_row key r groups) rows groups)
   == sum_of snd groups + sum_of (λ r, price (row r)) rows)%Q.
Proof.
  revert groups. induction rows as [|r rows IH]; intros groups; simpl.
  - ring.
  - rewrite IH, add_row_sum. ring.
Qed.

(** Grouping keeps the total. *)
Lemma group_by_sum {K} `{EqDecision K} (key : JoinedJob → K) rows :
  (sum_of snd (group_by key rows) == sum_of (λ r, price (row r)) rows)%Q.
Proof. unfold group_by. rewrite fold_add_row_sum. simpl. ring. Qed.

Lemma add_row_length {K} `{EqDecision K} (key : JoinedJob → K) r groups :
  (length (add_row key r groups) ≤ S (length groups))%nat.
Proof.
  induction groups as [|g groups IH]; simpl; [lia|].
  destruct (decide (key (fst g) = key r)); simpl; lia.
Qed.

Lemma group_by_length {K} `{EqDecision K} (key : JoinedJob → K) rows :
  (length (group_by key rows) ≤ length rows)%nat.
Proof.
  unfold group_by.
  assert (∀ groups,
            (length (fold_left (λ groups r, add_row key r groups) rows groups)
             ≤ length groups + length rows)%nat) as Hgen; [|apply (Hgen [])].
  induction rows as [|r rows IH]; intros groups; simpl; [lia|].
  pose proof (IH (add_row key r groups)).
  pose proof (add_row_length key r groups). lia.
Qed.

Lemma paid_jobs_between_in_window start end_ d :
  paid_jobs_between start end_ d
  = filter (in_window start end_) (snd <$> map_to_list (jobs d)).
Proof.
  unfold paid_jobs_between. apply filter_bool_Prop.
  intros j. apply paid_between_in_window.
Qed.

Lemma paid_jobs_between_length start end_ d :
  (length (paid_jobs_between start end_ d) ≤ size (jobs d))%nat.
Proof.
  rewrite paid_jobs_between_in_window.
  rewrite <- length_map_to_list, <- (length_fmap snd).
  apply length_filter.
Qed.

Lemma sum_of_joined (join : Job → JoinedJob) l :
  (∀ j, row (join j) = j) →
  sum_of (λ r, price (row r)) (join <$> l) = sum_of_prices l.
Proof.
  intros Hrow. induction l as [|j l IH]; [done|].
  simpl. rewrite Hrow. f_equal. exact IH.
Qed.

(** X20.  The two reports add up to the same total: on a well-formed store,
    the sums of best-profession, and the sums of best-clients when [limit]
    is at least the number of stored jobs, both add up to the total price
    of the jobs paid within the window. *)
Theorem reports_add_up {E : Engine} {L : EngineLaws E}
    d caller start end_ p (n : nat) :
  profiles d !! caller = Some p →
  references_ok d →
  (size (jobs d) ≤ n)%nat →
  ∃ professions clients,
    BestProfession reliable d caller start end_ = (json professions, d) ∧
    BestClients reliable d caller start end_ (Some (numeral (Z.of_nat n)))
      = (json clients, d) ∧
    (sum_of BestProfession.jobs_paid_sum professions
     == paid_within d start end_)%Q ∧
    (sum_of BestClients.paid clients == paid_within d start end_)%Q.
Proof.
  intros Hp Hrefs Hn.
  destruct (mapM_is_Some_2 profession_entry (find_professions start end_ d))
    as [professions Hprofessions].
  { apply Forall_forall. intros g Hg.
    by apply (find_professions_joined start end_ d). }
  destruct (mapM_is_Some_2 client_entry (ranked_clients start end_ d))
    as [clients Hclients].
  { apply Forall_forall. intros g Hg.
    destruct (ranked_clients_joined start end_ d g Hrefs Hg)
      as (j&c&q&Hj&Hc&Hq).
    change (is_Some (client_entry g)).
    unfold client_entry. rewrite Hj. unfold with_Client. simpl.
    rewrite Hc. simpl. rewrite Hq. simpl. eauto. }
  exists professions, clients.
  rewrite (BestProfession_run reliable d caller start end_ p Hp),
          (BestClients_run reliable d caller start end_ _ p Hp).
  cbn [reliable]. rewrite Hprofessions.
  rewrite or_2_numeral, find_clients_numeral, limit_rows_of_nat.
  rewrite take_ge.
  2:{ rewrite (ranked_clients_Permutation start end_ d).
      pose proof (group_by_length client_key
                    (with_Client d <$> paid_jobs_between start end_ d)).
      pose proof (paid_jobs_between_length start end_ d).
      rewrite length_fmap in *. lia. }
  rewrite Hclients. split; [done|]. split; [done|].
  apply mapM_Some in Hprofessions, Hclients.
  unfold paid_within. rewrite <- paid_jobs_between_in_window. split.
  - rewrite (sum_of_Forall2 snd BestProfession.jobs_paid_sum _ _ _ ltac:(
      intros g e He; by apply profession_entry_Some in He as [_ ->])
      Hprofessions).
    rewrite (sum_of_Permutation snd _ _
               (find_professions_Permutation start end_ d)).
    rewrite group_by_sum, (sum_of_joined (with_Contractor d)) by done.
    reflexivity.
  - rewrite (sum_of_Forall2 snd BestClients.paid _ _ _ ltac:(
      intros g e He; by apply client_entry_Some in He as (_&->&_))
      Hclients).
    rewrite (sum_of_Permutation snd _ _
               (ranked_clients_Permutation start end_ d)).
    rewrite group_by_sum, (sum_of_joined (with_Client d)) by done.
    reflexivity.
Qed.

Lemma reports_add_up_witness :
  ∃ professions clients,
    BestProfession (E := stable_engine) reliable Paid.store 1 0 100
      = (json professions, Paid.store) ∧
    BestClients (E := stable_engine) reliable Paid.store 1 0 100
      (Some (numeral (Z.of_nat 4)))
      = (json clients, Paid.store) ∧
    (sum_of BestProfession.jobs_paid_sum professions
     == paid_within Paid.store 0 100)%Q ∧
    (sum_of BestClients.paid clients == paid_within Paid.store 0 100)%Q.
Proof.
  apply (reports_add_up (L := insertion_engine_laws true) Paid.store 1 0 100
           (mkProfile "Harry" "Potter" "Wizard" 100 client) 4);
    [reflexivity
    | apply (bool_decide_unpack _); vm_compute; exact I
    | vm_compute; lia].
Defined.

Lemma Forall2_elem_of_l {A B} (P : A → B → Prop) l k x :
  Forall2 P l k → x ∈ l → ∃ y, y ∈ k ∧ P x y.
Proof.
  induction 1 as [|x' y l k Hxy _ IH]; [by intros ?%elem_of_nil|].
  intros [->|Hin]%elem_of_cons.
  - exists y. split; [left|done].
  - destruct (IH Hin) as (y'&?&?). exists y'. split; [by right|done].
Qed.

Section ProfessionEntries.

Context {E : Engine} {L : EngineLaws E}.

(** On a well-formed store the report has an entry, holding what was paid
    to it, for every profession with a job paid within the window. *)
Lemma BestProfession_entry_of d caller start end_ p :
  profiles d !! caller = Some p →
  references_ok d →
  ∃ result,
    BestProfession reliable d caller start end_ = (json result, d) ∧
    ∀ prof,
      (∃ i j, jobs d !! i = Some j ∧ in_window start end_ j ∧
              contractor_profession d j = Some prof) →
      ∃ entry, entry ∈ result ∧
               BestProfession.profession entry = prof ∧
               (BestProfession.jobs_paid_sum entry
                == paid_to_profession d start end_ prof)%Q.
Proof.
  intros Hp Hrefs.
  rewrite (BestProfession_run reliable d caller start end_ p Hp).
  cbn [reliable].
  pose proof (find_professions_Permutation start end_ d) as Hperm.
  set (rows := with_Contractor d <$> paid_jobs_between start end_ d) in *.
  set (G := find_professions start end_ d) in *.
  destruct (mapM_is_Some_2 profession_entry G) as [result Hresult].
  { apply Forall_forall. intros g Hg.
    by apply (find_professions_joined start end_ d). }
  rewrite Hresult. exists result. split; [done|].
  apply mapM_Some in Hresult.
  intros prof (i&j&Hi&Hw&Hprof).
  assert (Some prof ∈ keys profession_key G) as Hin.
  { unfold keys. rewrite Hperm.
    fold (keys profession_key (group_by profession_key rows)).
    rewrite group_by_elem_of_keys. unfold rows.
    rewrite <- list_fmap_compose. apply list_elem_of_fmap. exists j. split.
    - simpl. by rewrite profession_key_with_Contractor.
    - apply elem_of_paid_jobs_between. eauto. }
  apply list_elem_of_fmap in Hin as (g&Hk&Hg).
  destruct (Forall2_elem_of_l _ _ _ _ Hresult Hg) as (entry&Hentry&He).
  exists entry. split; [done|].
  apply profession_entry_Some in He as [Hk' Hsum].
  rewrite Hk' in Hk. injection Hk as Hk. split; [done|].
  rewrite Hsum.
  rewrite <- (total_where_NoDup profession_key G g); [|
    unfold keys; rewrite Hperm; apply (group_by_NoDup profession_key)|done].
  rewrite (total_where_Permutation profession_key _ _ _ Hperm).
  rewrite group_by_total, Hk'. unfold rows, paid_jobs_between.
  rewrite (sum_where_selected profession_key (with_Contractor d)
             (in_window start end_));
    [|done|apply paid_between_in_window].
  unfold paid_to_profession. subst prof.
  erewrite list_filter_iff; [reflexivity|].
  intros j'. simpl. by rewrite profession_key_with_Contractor.
Qed.

End ProfessionEntries.

Lemma contractor_profession_kept d d' j :
  contracts d' = contracts d →
  (∀ k, identity_of <$> profiles d' !! k = identity_of <$> profiles d !! k) →
  contractor_profession d' j = contractor_profession d j.
Proof.
  intros Hc Hid. unfold contractor_profession. rewrite Hc.
  destruct (contracts d !! ContractId j) as [c|]; [|done]. simpl.
  specialize (Hid (ContractorId c)).
  destruct (profiles d' !! ContractorId c) as [q'|],
           (profiles d !! ContractorId c) as [q|]; try done.
  simpl in *. by injection Hid as _ _ -> _.
Qed.

(** X21.  A payment shows in the report.  After a 200 reply of the paying
    route at [now], on a well-formed store, best-profession over a window
    that holds [now] has an entry for the profession of the job's
    contractor, and its sum is what the profession had been paid within
    the window before, plus the price of the job. *)
Theorem payment_shows_in_best_profession {E : Engine} {L : EngineLaws E}
    fails d caller job_id now d' caller' start end_ j c payee :
  references_ok d →
  PayJob fails d caller job_id now = (status_end 200, d') →
  jobs d !! job_id = Some j →
  contracts d !! ContractId j = Some c →
  profiles d !! ContractorId c = Some payee →
  is_Some (profiles d !! caller') →
  start ≤ now ≤ end_ →
  ∃ result entry,
    BestProfession reliable d' caller' start end_ = (json result, d') ∧
    entry ∈ result ∧
    BestProfession.profession entry = profession payee ∧
    (BestProfession.jobs_paid_sum entry
     == paid_to_profession d start end_ (profession payee) + price j)%Q.
Proof.
  intros Hrefs Hpay Hj Hc Hpayee Hcaller' Hnow.
  pose proof (PayJob_frame fails d caller job_id now) as (Hcs&_&_&_&Hid).
  pose proof (PayJob_jobs fails d caller job_id now) as Hjobs.
  pose proof (PayJob_200_paid fails d caller job_id now) as Hpaid.
  rewrite Hpay in Hcs, Hid, Hjobs, Hpaid. cbn [fst snd] in *.
  destruct (Hpaid eq_refl) as (j0&Hj0&Hunpaid&Hj').
  rewrite Hj in Hj0. injection Hj0 as <-.
  assert (references_ok d') as Hrefs'
    by (by apply (references_ok_kept d d' now)).
  assert (is_Some (profiles d' !! caller')) as [q Hq]
    by (by apply (is_Some_identity_of (profiles d) (profiles d'))).
  assert (contractor_profession d (set_paid now j) = Some (profession payee))
    as Hprof.
  { unfold contractor_profession. simpl. rewrite Hc. simpl.
    by rewrite Hpayee. }
  destruct (BestProfession_entry_of d' caller' start end_ q Hq Hrefs')
    as (result&Hresult&Hentries).
  destruct (Hentries (profession payee)) as (entry&Hentry&Hname&Hsum).
  { exists job_id, (set_paid now j). split; [done|].
    split; [split; [done|by exists now]|].
    by rewrite (contractor_profession_kept d d'). }
  exists result, entry. split; [done|]. split; [done|]. split; [done|].
  rewrite Hsum. unfold paid_to_profession.
  assert (jobs d' = alter (set_paid now) job_id (jobs d)) as ->.
  { apply map_eq. intros i. rewrite lookup_alter.
    case_decide as Hi; [subst; by rewrite Hj', Hj|].
    destruct (Hjobs i) as [Heq|Heq]; [done|].
    destruct (PayJob_frame fails d caller job_id now) as (_&Hother&_).
    rewrite Hpay in Hother. by apply Hother. }
  erewrite (list_filter_iff _
    (λ j, in_window start end_ j ∧
          contractor_profession d j = Some (profession payee)));
    [|by intros j'; rewrite (contractor_profession_kept d d')].
  pose proof (sum_filter_alter
                (λ j, in_window start end_ j ∧
                      contractor_profession d j = Some (profession payee))
                (set_paid now) job_id j (jobs d) Hj) as Hmove.
  rewrite decide_False in Hmove
    by (intros [[Hp' _] _]; congruence).
  rewrite decide_True in Hmove by (split; [split; [done|by exists now]|done]).
  rewrite Qplus_0_r in Hmove. rewrite Hmove. reflexivity.
Qed.

Lemma payment_shows_in_best_profession_witness :
  ∃ result entry,
    BestProfession (E := stable_engine) reliable
      (PayJob reliable Scenario.store 1 7 1000).2 2 0 2000
      = (json result, (PayJob reliable Scenario.store 1 7 1000).2) ∧
    entry ∈ result ∧
    BestProfession.profession entry = profession Scenario.T ∧
    (BestProfession.jobs_paid_sum entry
     == paid_to_profession Scenario.store 0 2000 (profession Scenario.T)
        + price Scenario.J)%Q.
Proof.
  apply (payment_shows_in_best_profession (L := insertion_engine_laws true)
           reliable Scenario.store 1 7 1000
           (PayJob reliable Scenario.store 1 7 1000).2 2 0 2000
           Scenario.J Scenario.K Scenario.T);
    [apply (bool_decide_unpack _); vm_compute; exact I
    | reflexivity | reflexivity | reflexivity | reflexivity
    | vm_compute; eauto | lia].
Defined.

(** X22.  A deposit counts at once towards a payment: after a 200 reply of
    the deposit route to the caller's own account, on a store that refuses
    no call, the caller can pay a job whose price its raised balance
    covers, and is left with balance plus amount less price. *)
Theorem deposit_then_pay d caller amount d1 job_id now p j c payee :
  Deposit reliable d caller caller amount = (status_end 200, d1) →
  profiles d !! caller = Some p →
  jobs d !! job_id = Some j →
  paid j = None →
  contracts d !! ContractId j = Some c →
  status c = in_progress →
  ClientId c = caller →
  profiles d !! ContractorId c = Some payee →
  ContractorId c ≠ ClientId c →
  (price j <= balance p + amount)%Q →
  (PayJob reliable d1 caller job_id now).1 = status_end 200 ∧
  balance <$> profiles (PayJob reliable d1 caller job_id now).2 !! caller
    = Some (balance p + amount - price j)%Q ∧
  balance <$> profiles (PayJob reliable d1 caller job_id now).2
                !! ContractorId c
    = Some (balance payee + price j)%Q.
Proof.
  intros Hdep Hp Hj Hpaid Hc Hs Hcl Hpayee Hne Hle.
  rewrite (Deposit_trace reliable d caller caller amount p Hp), Hp in Hdep.
  cbn [reliable] in Hdep.
  destruct (Qgtb _ _); [done|]. injection Hdep as <-.
  set (d1 := deposited d caller amount p).
  set (p1 := set_balance (balance p + amount) p).
  assert (profiles d1 !! caller = Some p1) as Hp1.
  { unfold d1, deposited.
    by rewrite profiles_update_profile, decide_True, Hp. }
  assert (profiles d1 !! ContractorId c = Some payee) as Hpayee1.
  { unfold d1, deposited.
    by rewrite profiles_update_profile, decide_False, Hpayee by congruence. }
  set (r := {| job := j; Contract_ := c; Contractor := Some payee |}).
  assert (find_payable job_id caller d1 = Some r) as Hf.
  { apply find_payable_Some. unfold r. cbn [job Contract_ Contractor].
    rewrite Hpayee1.
    change (jobs d1) with (jobs d). change (contracts d1) with (contracts d).
    done. }
  rewrite (PayJob_reliable_marked d1 caller job_id now p1 r payee
             Hp1 Hf eq_refl) by done.
  split; [done|]. cbn [snd].
  rewrite !profiles_marked, !profiles_credited. unfold r.
  cbn [job Contract_ Contractor].
  rewrite (decide_False (P := ContractorId c = caller)) by congruence.
  rewrite !decide_True by done.
  rewrite (decide_False (P := caller = ContractorId c)) by congruence.
  rewrite Hp1, Hpayee1. simpl. split; f_equal.
Qed.

Lemma deposit_then_pay_witness :
  (PayJob reliable (Deposit reliable Scenario.store 1 1 5).2 1 7 1000).1
    = status_end 200 ∧
  balance <$> profiles
    (PayJob reliable (Deposit reliable Scenario.store 1 1 5).2 1 7 1000).2
    !! 1
    = Some (100 + 5 - 30)%Q ∧
  balance <$> profiles
    (PayJob reliable (Deposit reliable Scenario.store 1 1 5).2 1 7 1000).2
    !! 2
    = Some (0 + 30)%Q.
Proof.
  apply (deposit_then_pay Scenario.store 1 5
           (Deposit reliable Scenario.store 1 1 5).2 7 1000
           Scenario.C Scenario.J Scenario.K Scenario.T);
    try reflexivity; [simpl; lia | unfold Qle; simpl; lia].
Defined.
